(** * consul-lb-gce: the Consul service registry (registry/consul/consul.go)

    A shallow embedding of the Consul-backed registry and of the three kinds
    of goroutine it runs: [Run] (the dispatch loop and, deferred, [stop]),
    [watchServices] (the catalog watch loop) and [watchService] (one loop
    per watched service).  Sequential pieces are plain functions; the
    concurrent program is an interleaving step function over a state that
    holds the shared memory, the channels, the mutex and one program
    counter per goroutine. *)

From stdpp Require Import base functions gmap list strings.
From Stdlib Require Import ZArith DecimalString DecimalPos DecimalZ.

Open Scope Z_scope.

(** ** Data model *)

(** Pointer identity of a [*consulService]: the allocation number. *)
Abbreviation rid := nat.

Module registry.

(** Modelled from the spec: package [registry] of this repository is not
    among the sources; [ServiceInstance] has the four fields that
    consul.go fills in (Host, Address, Tags, Port). *)
Record ServiceInstance := mkInstance {
  Host : string;
  Address : string;
  Tags : list string;
  Port : string }.

(** Modelled from the spec: the update types NEW, CHANGED and DELETED of
    package [registry], which is not among the sources. *)
Inductive UpdateType := NEW | CHANGED | DELETED.

(** Modelled from the spec: [registry.ServiceUpdate], not among the
    sources, with the fields consul.go sets.  A nil [ServiceInstances]
    (NEW and DELETED updates) is the empty map. *)
Record ServiceUpdate := mkUpdate {
  ServiceName : string;
  UpdateType_ : UpdateType;
  ServiceInstances : gmap string ServiceInstance;
  Tag : string }.

(** Modelled from the spec: [registry.Config], not among the sources,
    with the two fields [NewRegistry] reads. *)
Record Config := mkConfig {
  Addresses : list string;
  TagsToWatch : list string }.

End registry.

Module consul.

(** The fields of [api.CatalogService] (hashicorp/consul/api) that
    [watchService] reads. *)
Record CatalogService := mkNode {
  Node : string;
  Address : string;
  ServiceAddress : string;
  ServicePort : Z;
  ServiceTags : list string }.

End consul.

#[global] Instance UpdateType_eq_dec : EqDecision registry.UpdateType.
Proof. solve_decision. Defined.

(** [consulService]: [registry.Service] is embedded ([Name], [Instances]);
    the channel [done] is only ever closed and polled, so it is the flag
    "has been closed". *)
Record consulService := mkService {
  Name : string;
  Instances : gmap string registry.ServiceInstance;
  lastIndex : Z;
  removed : bool;
  running : bool;
  done : bool;
  tag : string }.

(** [new(consulService)] *)
Definition zeroService : consulService :=
  mkService "" ∅ 0 false false false "".

(** [consulWatchTimeout] and [consulRetryInterval], in nanoseconds. *)
Definition second : Z := 1000000000.
Definition consulWatchTimeout : Z := 30 * second.
Definition consulRetryInterval : Z := 15 * second.

(** ** Sequential pieces *)

(** [strconv.Itoa] and the verb [%d]: the decimal rendering. *)
Definition itoa (n : Z) : string := NilZero.string_of_int (Z.to_int n).

(** [fmt.Sprintf("%s:%d", node.ServiceAddress, node.ServicePort)] *)
Definition instanceKey (node : consul.CatalogService) : string :=
  consul.ServiceAddress node +:+ ":" +:+ itoa (consul.ServicePort node).

(** The [&registry.ServiceInstance{...}] literal of [watchService]. *)
Definition instanceOf (node : consul.CatalogService) : registry.ServiceInstance :=
  {| registry.Host := consul.Node node;
     registry.Address := consul.Address node;
     registry.Tags := consul.ServiceTags node;
     registry.Port := itoa (consul.ServicePort node) |}.

(** The loop [for _, node := range nodes] of [watchService], started from
    the fresh map [make(map[string]*registry.ServiceInstance, len(nodes))]. *)
Definition buildInstances (nodes : list consul.CatalogService)
  : gmap string registry.ServiceInstance :=
  foldl (λ m node, <[instanceKey node := instanceOf node]> m) ∅ nodes.

(** The two nested tag loops of [watchServices]: the pair is
    ([ignore], [properTag]); there is no [break]. *)
Definition matchOne (tagsToWatch : list string) (acc : bool * string) (tag : string)
  : bool * string :=
  foldl (λ acc tagToWatch, if decide (tag = tagToWatch) then (false, tag) else acc)
        acc tagsToWatch.

Definition matchTags (tagsToWatch v : list string) : bool * string :=
  foldl (matchOne tagsToWatch) (true, ""%string) v.

(** [NewRegistry].  The Consul client library is a parameter: the type
    [api.Config], its default value, the assignment to its field [Address]
    and the constructor [api.NewClient], which may fail. *)
Inductive error (E : Type) :=
  | ErrNoAddress
  | ClientError (e : E).
Arguments ErrNoAddress {E}.
Arguments ClientError {E} e.

Record consulRegistry (Client : Type) := mkRegistry {
  client : Client;
  watchedServices0 : gmap string rid;
  tagsToWatch0 : list string }.
Arguments mkRegistry {Client}.
Arguments client {Client}.
Arguments watchedServices0 {Client}.
Arguments tagsToWatch0 {Client}.

Section NewRegistry.
Context {Config Client E : Type}.
Variable DefaultConfig : Config.
Variable setAddress : string → Config → Config.
Variable NewClient : Config → Client + E.

Definition NewRegistry (config : registry.Config)
  : consulRegistry Client + error E :=
  match registry.Addresses config with
  | [] => inr ErrNoAddress
  | address :: _ =>
      let clientConfig := setAddress address DefaultConfig in
      match NewClient clientConfig with
      | inr err => inr (ClientError err)
      | inl client =>
          inl (mkRegistry client ∅ (registry.TagsToWatch config))
      end
  end.
End NewRegistry.

(** ** The concurrent program *)

(** Goroutines: [Run] (with the deferred [stop]), [watchServices], and the
    [i]-th goroutine started by [go cr.watchService(srv, upstream)]. *)
Inductive tid := TRun | TCatalog | TWatch (i : nat).

#[global] Instance tid_eq_dec : EqDecision tid.
Proof. solve_decision. Defined.

(** Where a [close(srv.done)] stands: in [Run] or in [stop]. *)
Inductive site := InRun | InStop.

#[global] Instance site_eq_dec : EqDecision site.
Proof. solve_decision. Defined.

(** What a goroutine does to the shared memory and the channels. *)
Inductive action :=
  | ALock
  | AUnlock
  | ACacheInsert (k : string) (r : rid)
  | ACacheDelete (k : string)
  | ASetRemoved (r : rid)
  | ASetRunning (r : rid)
  | ASetLastIndex (r : rid) (idx : Z)
  | ASetInstances (r : rid)
  | ACloseDone (s : site) (r : rid)
  | ACheckDone (r : rid) (closed : bool)
  | AGo (r : rid)
  | AEmit (r : rid) (u : registry.ServiceUpdate)
  | ACloseUpstream
  | ALogError
  | ASleep (d : Z).

(** One entry of the history: who acted, who held [cr]'s mutex at that
    moment, and the action. *)
Record entry := mkEntry {
  who : tid;
  holder : option tid;
  act : action }.

(** A reply of [catalog.Services] and of [catalog.Service]: an error, or
    the data together with [meta.LastIndex]. *)
Inductive reply (A : Type) :=
  | Err
  | Ok (data : A) (index : Z).
Arguments Err {A}.
Arguments Ok {A} data index.

Abbreviation catalog := (gmap string (list string)).

(** Program points of [Run] and of the deferred calls [cr.stop()] and
    [close(upstream)]. *)
Inductive run_pc :=
  | R_start
  | R_select
  | R_recv (srv : rid)
  | R_close (srv : rid)
  | R_send_deleted (srv : rid)
  | R_test_running (srv : rid)
  | R_go (srv : rid)
  | R_set_running (srv : rid)
  | R_send_new (srv : rid)
  | R_stop_lock
  | R_stop_range (todo : list string)
  | R_stop_unlock
  | R_close_upstream
  | R_returned.

(** Program points of [watchServices]. *)
Inductive cat_pc :=
  | C_query
  | C_sleep
  | C_lock (services : catalog)
  | C_select (services : catalog)
  | C_exit_unlock
  | C_range_services (services : catalog) (todo : list string)
  | C_send_new (services : catalog) (todo : list string) (service : rid)
  | C_range_cache (services : catalog) (todo : list string)
  | C_send_removed (services : catalog) (todo : list string) (name : string) (srv : rid)
  | C_delete (services : catalog) (todo : list string) (name : string)
  | C_unlock
  | C_returned.

(** Program points of [watchService]. *)
Inductive watch_pc :=
  | W_query
  | W_sleep
  | W_store (nodes : list consul.CatalogService) (index : Z)
  | W_lock
  | W_check
  | W_exit_unlock
  | W_send
  | W_unlock
  | W_returned.

Record state := mkState {
  tagsToWatch : list string;
  watchedServices : gmap string rid;
  heap : rid → consulService;
  next : rid;
  mutex : option tid;
  stopCh : bool;
  update : list rid;
  upstreamClosed : bool;
  panicked : bool;
  runPc : run_pc;
  catPc : option cat_pc;
  catLastIndex : Z;
  watchers : list (rid * watch_pc);
  trace : list entry }.

(** Field updates of the state. *)
Definition set_watchedServices (v : gmap string rid) (s : state) : state :=
  mkState (tagsToWatch s) v (heap s) (next s) (mutex s) (stopCh s) (update s) (upstreamClosed s) (panicked s) (runPc s) (catPc s) (catLastIndex s) (watchers s) (trace s).
Definition set_heap (v : rid → consulService) (s : state) : state :=
  mkState (tagsToWatch s) (watchedServices s) v (next s) (mutex s) (stopCh s) (update s) (upstreamClosed s) (panicked s) (runPc s) (catPc s) (catLastIndex s) (watchers s) (trace s).
Definition set_next (v : rid) (s : state) : state :=
  mkState (tagsToWatch s) (watchedServices s) (heap s) v (mutex s) (stopCh s) (update s) (upstreamClosed s) (panicked s) (runPc s) (catPc s) (catLastIndex s) (watchers s) (trace s).
Definition set_mutex (v : option tid) (s : state) : state :=
  mkState (tagsToWatch s) (watchedServices s) (heap s) (next s) v (stopCh s) (update s) (upstreamClosed s) (panicked s) (runPc s) (catPc s) (catLastIndex s) (watchers s) (trace s).
Definition set_stopCh (v : bool) (s : state) : state :=
  mkState (tagsToWatch s) (watchedServices s) (heap s) (next s) (mutex s) v (update s) (upstreamClosed s) (panicked s) (runPc s) (catPc s) (catLastIndex s) (watchers s) (trace s).
Definition set_update (v : list rid) (s : state) : state :=
  mkState (tagsToWatch s) (watchedServices s) (heap s) (next s) (mutex s) (stopCh s) v (upstreamClosed s) (panicked s) (runPc s) (catPc s) (catLastIndex s) (watchers s) (trace s).
Definition set_upstreamClosed (v : bool) (s : state) : state :=
  mkState (tagsToWatch s) (watchedServices s) (heap s) (next s) (mutex s) (stopCh s) (update s) v (panicked s) (runPc s) (catPc s) (catLastIndex s) (watchers s) (trace s).
Definition set_panicked (v : bool) (s : state) : state :=
  mkState (tagsToWatch s) (watchedServices s) (heap s) (next s) (mutex s) (stopCh s) (update s) (upstreamClosed s) v (runPc s) (catPc s) (catLastIndex s) (watchers s) (trace s).
Definition set_runPc (v : run_pc) (s : state) : state :=
  mkState (tagsToWatch s) (watchedServices s) (heap s) (next s) (mutex s) (stopCh s) (update s) (upstreamClosed s) (panicked s) v (catPc s) (catLastIndex s) (watchers s) (trace s).
Definition set_catPc (v : option cat_pc) (s : state) : state :=
  mkState (tagsToWatch s) (watchedServices s) (heap s) (next s) (mutex s) (stopCh s) (update s) (upstreamClosed s) (panicked s) (runPc s) v (catLastIndex s) (watchers s) (trace s).
Definition set_catLastIndex (v : Z) (s : state) : state :=
  mkState (tagsToWatch s) (watchedServices s) (heap s) (next s) (mutex s) (stopCh s) (update s) (upstreamClosed s) (panicked s) (runPc s) (catPc s) v (watchers s) (trace s).
Definition set_watchers (v : list (rid * watch_pc)) (s : state) : state :=
  mkState (tagsToWatch s) (watchedServices s) (heap s) (next s) (mutex s) (stopCh s) (update s) (upstreamClosed s) (panicked s) (runPc s) (catPc s) (catLastIndex s) v (trace s).
Definition set_trace (v : list entry) (s : state) : state :=
  mkState (tagsToWatch s) (watchedServices s) (heap s) (next s) (mutex s) (stopCh s) (update s) (upstreamClosed s) (panicked s) (runPc s) (catPc s) (catLastIndex s) (watchers s) v.

(** Field updates of a [consulService]. *)
Definition with_Instances (v : gmap string registry.ServiceInstance) (c : consulService) : consulService :=
  mkService (Name c) v (lastIndex c) (removed c) (running c) (done c) (tag c).
Definition with_lastIndex (v : Z) (c : consulService) : consulService :=
  mkService (Name c) (Instances c) v (removed c) (running c) (done c) (tag c).
Definition with_removed (v : bool) (c : consulService) : consulService :=
  mkService (Name c) (Instances c) (lastIndex c) v (running c) (done c) (tag c).
Definition with_running (v : bool) (c : consulService) : consulService :=
  mkService (Name c) (Instances c) (lastIndex c) (removed c) v (done c) (tag c).
Definition with_done (v : bool) (c : consulService) : consulService :=
  mkService (Name c) (Instances c) (lastIndex c) (removed c) (running c) v (tag c).

(** Append to the history; the holder is the mutex owner before the step. *)
Definition record (t : tid) (a : action) (s : state) : state :=
  set_trace (trace s ++ [mkEntry t (mutex s) a]) s.

(** An assignment to fields of the record [srv] points to. *)
Definition store (srv : rid) (f : consulService → consulService) (s : state) : state :=
  set_heap (<[srv := f (heap s srv)]> (heap s)) s.

(** A run-time panic (close of a closed channel, send on a closed channel)
    ends the whole program.  The model stops there: no step is enabled in
    a panicked state, and the deferred calls that Go still runs while [Run]
    itself is panicking are not followed. *)
Definition panic (s : state) : state := set_panicked true s.

(** [make(chan *consulService, 16)] *)
Definition updateCap : nat := 16.

(** [update <- srv]: blocks while the buffer is full. *)
Definition sendUpdate (srv : rid) (s : state) : option state :=
  if decide (length (update s) < updateCap)%nat
  then Some (set_update (update s ++ [srv]) s)
  else None.

(** [upstream <- u], then [k]: a send on a closed channel panics. *)
Definition sendUpstream (t : tid) (srv : rid) (u : registry.ServiceUpdate)
    (k : state → state) (s : state) : state :=
  if upstreamClosed s then panic s else k (record t (AEmit srv u) s).

(** [cr.Lock()] blocks while the mutex is held; [cr.Unlock()]. *)
Definition Lock (t : tid) (s : state) : option state :=
  match mutex s with
  | None => Some (set_mutex (Some t) (record t ALock s))
  | Some _ => None
  end.

Definition Unlock (t : tid) (s : state) : state :=
  set_mutex None (record t AUnlock s).

(** [close(srv.done)], then [k]: closing a closed channel panics. *)
Definition closeDone (t : tid) (at_ : site) (srv : rid)
    (k : state → state) (s : state) : state :=
  if done (heap s srv) then panic s
  else k (store srv (with_done true) (record t (ACloseDone at_ srv) s)).

(** The remaining keys of a [range] loop once [k] has been visited. *)
Definition visited (k : string) (todo : list string) : list string :=
  filter (λ x, x ≠ k) todo.

Definition keys {A} (m : gmap string A) : list string := (map_to_list m).*1.

(** The three updates sent upstream. *)
Definition deletedUpdate (c : consulService) : registry.ServiceUpdate :=
  registry.mkUpdate (Name c) registry.DELETED ∅ (tag c).
Definition newUpdate (c : consulService) : registry.ServiceUpdate :=
  registry.mkUpdate (Name c) registry.NEW ∅ (tag c).
Definition changedUpdate (c : consulService) : registry.ServiceUpdate :=
  registry.mkUpdate (Name c) registry.CHANGED (Instances c) (tag c).

(** *** The steps

    A label names the goroutine that moves and carries what the outside
    world decides: the reply of a blocking query, the branch of a [select]
    with two ready cases, the next entry of a [range] over a map (Go
    leaves the order open), and the caller closing the channel [done]. *)
Inductive label :=
  | LStop
  | LRun
  | LRunDone
  | LRunUpdate
  | LRunRange (name : string)
  | LCat
  | LCatReply (rep : reply catalog)
  | LCatRange (k : string)
  | LWatch (i : nat)
  | LWatchReply (i : nat) (rep : reply (list consul.CatalogService)).

(** [Run], and then the deferred [cr.stop()] and [close(upstream)]. *)
Definition runStep (s : state) : option state :=
  match runPc s with
  | R_start =>
      Some (set_runPc R_select (set_catPc (Some C_query) s))
  | R_recv srv =>
      Some (set_runPc (if removed (heap s srv) then R_close srv
                       else R_test_running srv) s)
  | R_close srv =>
      Some (closeDone TRun InRun srv (set_runPc (R_send_deleted srv)) s)
  | R_send_deleted srv =>
      Some (sendUpstream TRun srv (deletedUpdate (heap s srv)) (set_runPc R_select) s)
  | R_test_running srv =>
      Some (set_runPc (if running (heap s srv) then R_select else R_go srv) s)
  | R_go srv =>
      Some (set_runPc (R_set_running srv)
              (set_watchers (watchers s ++ [(srv, W_query)])
                 (record TRun (AGo srv) s)))
  | R_set_running srv =>
      Some (set_runPc (R_send_new srv)
              (store srv (with_running true) (record TRun (ASetRunning srv) s)))
  | R_send_new srv =>
      Some (sendUpstream TRun srv (newUpdate (heap s srv)) (set_runPc R_select) s)
  | R_stop_lock =>
      s' ← Lock TRun s;
      Some (set_runPc (R_stop_range (keys (watchedServices s))) s')
  | R_stop_range [] =>
      Some (set_runPc R_stop_unlock s)
  | R_stop_unlock =>
      Some (set_runPc R_close_upstream (Unlock TRun s))
  | R_close_upstream =>
      Some (if upstreamClosed s then panic s
            else set_runPc R_returned
                   (set_upstreamClosed true (record TRun ACloseUpstream s)))
  | R_select | R_stop_range (_ :: _) | R_returned => None
  end.

(** [select]: the case [<-done]. *)
Definition runSelectDone (s : state) : option state :=
  match runPc s with
  | R_select => if stopCh s then Some (set_runPc R_stop_lock s) else None
  | _ => None
  end.

(** [select]: the case [srv := <-update]. *)
Definition runSelectUpdate (s : state) : option state :=
  match runPc s, update s with
  | R_select, srv :: rest => Some (set_runPc (R_recv srv) (set_update rest s))
  | _, _ => None
  end.

(** [stop]: one round of [for _, srv := range cr.watchedServices]. *)
Definition runStopRange (name : string) (s : state) : option state :=
  match runPc s with
  | R_stop_range todo =>
      if decide (name ∈ todo) then
        let todo' := visited name todo in
        match watchedServices s !! name with
        | Some srv =>
            Some (closeDone TRun InStop srv (set_runPc (R_stop_range todo')) s)
        | None => Some (set_runPc (R_stop_range todo') s)
        end
      else None
  | _ => None
  end.

(** [watchServices]: the reply of [catalog.Services] with
    [WaitIndex: lastIndex]. *)
Definition catReply (rep : reply catalog) (s : state) : option state :=
  match catPc s with
  | Some C_query =>
      match rep with
      | Err => Some (set_catPc (Some C_sleep) (record TCatalog ALogError s))
      | Ok services index =>
          if decide (index = catLastIndex s) then Some s
          else Some (set_catPc (Some (C_lock services)) (set_catLastIndex index s))
      end
  | _ => None
  end.

(** [service = new(consulService)] with its three assignments, and
    [cr.watchedServices[k] = service]. *)
Definition addService (k properTag : string) (s : state) : state :=
  let service := next s in
  set_watchedServices (<[k := service]> (watchedServices s))
    (set_next (S service)
       (set_heap (<[service := mkService k ∅ 0 false false false properTag]> (heap s))
          (record TCatalog (ACacheInsert k service) s))).

(** [watchServices]: the steps that need no choice. *)
Definition catStep (s : state) : option state :=
  match catPc s with
  | Some C_sleep =>
      Some (set_catPc (Some C_query) (record TCatalog (ASleep consulRetryInterval) s))
  | Some (C_lock services) =>
      s' ← Lock TCatalog s;
      Some (set_catPc (Some (C_select services)) s')
  | Some (C_select services) =>
      Some (set_catPc (Some (if stopCh s then C_exit_unlock
                             else C_range_services services (keys services))) s)
  | Some C_exit_unlock =>
      Some (set_catPc (Some C_returned) (Unlock TCatalog s))
  | Some (C_range_services services []) =>
      Some (set_catPc (Some (C_range_cache services (keys (watchedServices s)))) s)
  | Some (C_send_new services todo service) =>
      s' ← sendUpdate service s;
      Some (set_catPc (Some (C_range_services services todo)) s')
  | Some (C_range_cache services []) =>
      Some (set_catPc (Some C_unlock) s)
  | Some (C_send_removed services todo name srv) =>
      s' ← sendUpdate srv s;
      Some (set_catPc (Some (C_delete services todo name)) s')
  | Some (C_delete services todo name) =>
      Some (set_catPc (Some (C_range_cache services todo))
              (set_watchedServices (delete name (watchedServices s))
                 (record TCatalog (ACacheDelete name) s)))
  | Some C_unlock =>
      Some (set_catPc (Some C_query) (Unlock TCatalog s))
  | _ => None
  end.

(** [watchServices]: one round of [for k, v := range services], and one
    round of [for name, srv := range cr.watchedServices]. *)
Definition catRange (k : string) (s : state) : option state :=
  match catPc s with
  | Some (C_range_services services todo) =>
      if decide (k ∈ todo) then
        let todo' := visited k todo in
        let v := default [] (services !! k) in
        let '(ignore, properTag) := matchTags (tagsToWatch s) v in
        if ignore then Some (set_catPc (Some (C_range_services services todo')) s)
        else
          match watchedServices s !! k with
          | Some _ => Some (set_catPc (Some (C_range_services services todo')) s)
          | None =>
              Some (set_catPc (Some (C_send_new services todo' (next s)))
                      (addService k properTag s))
          end
      else None
  | Some (C_range_cache services todo) =>
      if decide (k ∈ todo) then
        let todo' := visited k todo in
        match watchedServices s !! k with
        | None => Some (set_catPc (Some (C_range_cache services todo')) s)
        | Some srv =>
            match services !! k with
            | Some _ => Some (set_catPc (Some (C_range_cache services todo')) s)
            | None =>
                Some (set_catPc (Some (C_send_removed services todo' k srv))
                        (store srv (with_removed true)
                           (record TCatalog (ASetRemoved srv) s)))
            end
        end
      else None
  | _ => None
  end.

(** The [i]-th [watchService] goroutine moves to [pc]. *)
Definition goto (i : nat) (service : rid) (pc : watch_pc) (s : state) : state :=
  set_watchers (<[i := (service, pc)]> (watchers s)) s.

(** [watchService]: the reply of [catalog.Service] with
    [WaitIndex: service.lastIndex]. *)
Definition watchReply (i : nat) (rep : reply (list consul.CatalogService))
    (s : state) : option state :=
  match watchers s !! i with
  | Some (service, W_query) =>
      match rep with
      | Err => Some (goto i service W_sleep (record (TWatch i) ALogError s))
      | Ok nodes index =>
          if decide (index = lastIndex (heap s service)) then Some s
          else Some (goto i service (W_store nodes index) s)
      end
  | _ => None
  end.

(** [watchService]: the steps that need no choice. *)
Definition watchStep (i : nat) (s : state) : option state :=
  match watchers s !! i with
  | Some (service, pc) =>
      let t := TWatch i in
      match pc with
      | W_sleep =>
          Some (goto i service W_query (record t (ASleep consulRetryInterval) s))
      | W_store nodes index =>
          Some (goto i service W_lock
                  (store service (with_Instances (buildInstances nodes))
                     (record t (ASetInstances service)
                        (store service (with_lastIndex index)
                           (record t (ASetLastIndex service index) s)))))
      | W_lock =>
          s' ← Lock t s;
          Some (goto i service W_check s')
      | W_check =>
          let closed := done (heap s service) in
          Some (goto i service (if closed then W_exit_unlock else W_send)
                  (record t (ACheckDone service closed) s))
      | W_exit_unlock =>
          Some (goto i service W_returned (Unlock t s))
      | W_send =>
          Some (sendUpstream t service (changedUpdate (heap s service))
                  (goto i service W_unlock) s)
      | W_unlock =>
          Some (goto i service W_query (Unlock t s))
      | W_query | W_returned => None
      end
  | None => None
  end.

(** The caller of [Run] closes [done]. *)
Definition stopStep (s : state) : option state :=
  if stopCh s then None else Some (set_stopCh true s).

Definition step (l : label) (s : state) : option state :=
  if panicked s then None
  else match l with
       | LStop => stopStep s
       | LRun => runStep s
       | LRunDone => runSelectDone s
       | LRunUpdate => runSelectUpdate s
       | LRunRange name => runStopRange name s
       | LCat => catStep s
       | LCatReply rep => catReply rep s
       | LCatRange k => catRange k s
       | LWatch i => watchStep i s
       | LWatchReply i rep => watchReply i rep s
       end.

(** A schedule is run from left to right. *)
Fixpoint exec (ls : list label) (s : state) : option state :=
  match ls with
  | [] => Some s
  | l :: ls' => s' ← step l s; exec ls' s'
  end.

(** The state in which [Run] is called on a registry made by
    [NewRegistry]: an empty cache, the configured tags. *)
Definition init (tags : list string) : state :=
  {| tagsToWatch := tags;
     watchedServices := ∅;
     heap := λ _, zeroService;
     next := 0%nat;
     mutex := None;
     stopCh := false;
     update := [];
     upstreamClosed := false;
     panicked := false;
     runPc := R_start;
     catPc := None;
     catLastIndex := 0;
     watchers := [];
     trace := [] |}.

Inductive reachable (tags : list string) : state → Prop :=
  | reachable_init : reachable tags (init tags)
  | reachable_step s l s' :
      reachable tags s → step l s = Some s' → reachable tags s'.

Definition reached (s : state) : Prop := ∃ tags, reachable tags s.

(** ** Reading the history *)

(** An update of type [ty] for the record [r] is sent upstream. *)
Definition emits (ty : registry.UpdateType) (r : rid) (e : entry) : Prop :=
  match act e with
  | AEmit r' u => r' = r ∧ registry.UpdateType_ u = ty
  | _ => False
  end.

(** [close(srv.done)] at the given place, for the record [r]. *)
Definition closes (at_ : site) (r : rid) (e : entry) : Prop :=
  match act e with
  | ACloseDone a r' => a = at_ ∧ r' = r
  | _ => False
  end.

(** [go cr.watchService(srv, upstream)] for the record [r]. *)
Definition launches (r : rid) (e : entry) : Prop :=
  match act e with
  | AGo r' => r' = r
  | _ => False
  end.

(** [srv.running = true] for the record [r]. *)
Definition setsRunning (r : rid) (e : entry) : Prop :=
  match act e with
  | ASetRunning r' => r' = r
  | _ => False
  end.

(** The [select] of [watchService] finds [service.done] closed. *)
Definition seesCancelled (r : rid) (e : entry) : Prop :=
  match act e with
  | ACheckDone r' true => r' = r
  | _ => False
  end.

Arguments emits _ _ !_ /.
Arguments closes _ _ !_ /.
Arguments launches _ !_ /.
Arguments setsRunning _ !_ /.
Arguments seesCancelled _ !_ /.

(** No entry satisfying [Q] comes later than one satisfying [P]. *)
Definition never_after (P Q : entry → Prop) (tr : list entry) : Prop :=
  ∀ i j e1 e2,
    tr !! i = Some e1 → tr !! j = Some e2 → P e1 → Q e2 → ¬ (i < j)%nat.

(** Every entry satisfying [Q] comes later than one satisfying [P]. *)
Definition preceded_by (P Q : entry → Prop) (tr : list entry) : Prop :=
  ∀ j e2,
    tr !! j = Some e2 → Q e2 →
    ∃ i e1, (i < j)%nat ∧ tr !! i = Some e1 ∧ P e1.

(** At most one entry satisfies [P]. *)
Definition at_most_once (P : entry → Prop) (tr : list entry) : Prop :=
  ∀ i j e1 e2, tr !! i = Some e1 → tr !! j = Some e2 → P e1 → P e2 → i = j.

(** The actions that the mutex is meant to guard: the writes to the cache
    and to [removed], the [select] on [service.done] and the send of a
    CHANGED update in [watchService], and the [close] in [stop]. *)
Definition guarded (a : action) : Prop :=
  match a with
  | ACacheInsert _ _ | ACacheDelete _ | ASetRemoved _ | ACheckDone _ _
  | ACloseDone InStop _ | AUnlock => True
  | AEmit _ u => registry.UpdateType_ u = registry.CHANGED
  | _ => False
  end.

(** An entry made while its goroutine held the mutex. *)
Definition underLock (e : entry) : Prop := holder e = Some (who e).

(** *** Program points inside a critical section *)

Definition runCritical (pc : run_pc) : bool :=
  match pc with
  | R_stop_range _ | R_stop_unlock => true
  | _ => false
  end.

Definition catCritical (pc : cat_pc) : bool :=
  match pc with
  | C_query | C_sleep | C_lock _ | C_returned => false
  | _ => true
  end.

Definition watchCritical (pc : watch_pc) : bool :=
  match pc with
  | W_check | W_exit_unlock | W_send | W_unlock => true
  | _ => false
  end.

Definition critical (s : state) (t : tid) : bool :=
  match t with
  | TRun => runCritical (runPc s)
  | TCatalog => from_option catCritical false (catPc s)
  | TWatch i => from_option (λ w, watchCritical w.2) false (watchers s !! i)
  end.

(** The goroutine inside a critical section is the one holding the mutex. *)
Definition mutex_inv (s : state) : Prop :=
  (runPc s = R_start → catPc s = None) ∧
  ∀ t, critical s t = true ↔ mutex s = Some t.

(** *** Records in use are allocated *)

Definition runRid (pc : run_pc) : option rid :=
  match pc with
  | R_recv r | R_close r | R_send_deleted r | R_test_running r | R_go r
  | R_set_running r | R_send_new r => Some r
  | _ => None
  end.

Definition catRid (pc : cat_pc) : option rid :=
  match pc with
  | C_send_new _ _ r | C_send_removed _ _ _ r => Some r
  | _ => None
  end.

Definition actRid (a : action) : option rid :=
  match a with
  | ACacheInsert _ r | ASetRemoved r | ASetRunning r | ASetLastIndex r _
  | ASetInstances r | ACloseDone _ r | ACheckDone r _ | AGo r | AEmit r _ => Some r
  | _ => None
  end.

Definition allocated (s : state) (o : option rid) : Prop :=
  ∀ r, o = Some r → (r < next s)%nat.

Record fresh_inv (s : state) : Prop := {
  fresh_cache : ∀ k r, watchedServices s !! k = Some r → (r < next s)%nat;
  fresh_update : Forall (λ r, (r < next s)%nat) (update s);
  fresh_watchers : Forall (λ w : rid * watch_pc, (w.1 < next s)%nat) (watchers s);
  fresh_run : allocated s (runRid (runPc s));
  fresh_cat : ∀ pc, catPc s = Some pc → allocated s (catRid pc);
  fresh_trace : Forall (λ e, allocated s (actRid (act e))) (trace s) }.

(** *** Who writes what, and under the mutex or not *)

(** The writes that are made without the mutex: [srv.running = true] and
    [close(srv.done)] in [Run], and the two assignments to
    [service.lastIndex] and [service.Instances] in [watchService]. *)
Definition unguarded (a : action) : Prop :=
  match a with
  | ASetRunning _ | ASetLastIndex _ _ | ASetInstances _ | ACloseDone InRun _ => True
  | _ => False
  end.

Definition lockUse (e : entry) : Prop :=
  (guarded (act e) → underLock e) ∧ (unguarded (act e) → ¬ underLock e).

(** The goroutine [t] runs [watchService] for the record [r]. *)
Definition watches (s : state) (t : tid) (r : rid) : Prop :=
  match t with
  | TWatch i => ∃ pc, watchers s !! i = Some (r, pc)
  | _ => False
  end.

(** Each kind of action has one author. *)
Definition author (s : state) (e : entry) : Prop :=
  match act e with
  | ACacheInsert _ _ | ACacheDelete _ | ASetRemoved _ => who e = TCatalog
  | ASetRunning _ | ACloseDone _ _ | AGo _ | ACloseUpstream => who e = TRun
  | ASetLastIndex r _ | ASetInstances r | ACheckDone r _ => watches s (who e) r
  | AEmit r u =>
      match registry.UpdateType_ u with
      | registry.CHANGED => watches s (who e) r
      | _ => who e = TRun
      end
  | _ => True
  end.

Definition discipline (s : state) : Prop :=
  Forall (λ e, lockUse e ∧ author s e) (trace s).

(** *** One watch loop per record *)

Record launch_inv (s : state) : Prop := {
  launch_running : ∀ i r pc,
    watchers s !! i = Some (r, pc) →
    running (heap s r) = true ∨ runPc s = R_set_running r;
  launch_pending : ∀ r,
    runPc s = R_go r ∨ runPc s = R_set_running r → running (heap s r) = false;
  launch_none : ∀ i r pc,
    runPc s = R_go r → watchers s !! i = Some (r, pc) → False;
  launch_unique : ∀ i j r pc pc',
    watchers s !! i = Some (r, pc) → watchers s !! j = Some (r, pc') → i = j }.

(** *** What the history says about launching and NEW *)

Record history_inv (s : state) : Prop := {
  hist_launched : ∀ r,
    Exists (launches r) (trace s) → ∃ i pc, watchers s !! i = Some (r, pc);
  hist_watcher : ∀ i r pc,
    watchers s !! i = Some (r, pc) → Exists (launches r) (trace s);
  hist_launch_once : ∀ r, at_most_once (launches r) (trace s);
  hist_running : ∀ r,
    Exists (setsRunning r) (trace s) → running (heap s r) = true;
  hist_running_once : ∀ r, at_most_once (setsRunning r) (trace s);
  hist_new : ∀ r,
    Exists (emits registry.NEW r) (trace s) → running (heap s r) = true;
  hist_run :
    match runPc s with
    | R_set_running r => Exists (launches r) (trace s)
    | R_send_new r =>
        running (heap s r) = true ∧ Exists (launches r) (trace s) ∧
        ¬ Exists (emits registry.NEW r) (trace s)
    | _ => True
    end;
  hist_new_once : ∀ r, at_most_once (emits registry.NEW r) (trace s);
  hist_new_after_go : ∀ r,
    preceded_by (launches r) (emits registry.NEW r) (trace s);
  hist_changed_after_go : ∀ r,
    preceded_by (launches r) (emits registry.CHANGED r) (trace s) }.

(** *** What the history says about cancellation *)

(** [Run] has left its loop: the deferred calls are running. *)
Definition runStopping (pc : run_pc) : bool :=
  match pc with
  | R_stop_range _ | R_stop_unlock | R_close_upstream | R_returned => true
  | _ => false
  end.

Record cancel_inv (s : state) : Prop := {
  cancel_done : ∀ a r,
    Exists (closes a r) (trace s) → done (heap s r) = true;
  cancel_removed : ∀ r,
    Exists (closes InRun r) (trace s) → removed (heap s r) = true;
  cancel_stop : ∀ r,
    Exists (closes InStop r) (trace s) → runStopping (runPc s) = true;
  cancel_run :
    match runPc s with
    | R_close r => removed (heap s r) = true
    | R_send_deleted r =>
        removed (heap s r) = true ∧ Exists (closes InRun r) (trace s)
    | R_test_running r | R_go r | R_set_running r | R_send_new r =>
        (∀ a, ¬ Exists (closes a r) (trace s)) ∧
        ¬ Exists (emits registry.DELETED r) (trace s)
    | _ => True
    end;
  cancel_deleted : ∀ r,
    preceded_by (closes InRun r) (emits registry.DELETED r) (trace s);
  cancel_new : ∀ a r,
    never_after (closes a r) (emits registry.NEW r) (trace s);
  cancel_new_deleted : ∀ r,
    never_after (emits registry.DELETED r) (emits registry.NEW r) (trace s) }.

(** *** What the history says about the watch loops *)

Record watch_inv (s : state) : Prop := {
  watch_seen_by : ∀ r,
    Exists (seesCancelled r) (trace s) → ∃ i pc, watchers s !! i = Some (r, pc);
  watch_seen : ∀ i r pc,
    watchers s !! i = Some (r, pc) → Exists (seesCancelled r) (trace s) →
    pc = W_exit_unlock ∨ pc = W_returned;
  watch_send : ∀ i r,
    watchers s !! i = Some (r, W_send) → ¬ Exists (closes InStop r) (trace s);
  watch_changed_stop : ∀ r,
    never_after (closes InStop r) (emits registry.CHANGED r) (trace s);
  watch_changed_seen : ∀ r,
    never_after (seesCancelled r) (emits registry.CHANGED r) (trace s) }.

(** ** The claims' vocabulary *)

(** The first and the last tag of the service's list [v] that is also in
    the list of tags to watch. *)
Definition firstMatch (tagsToWatch v : list string) : option string :=
  head (filter (λ t, t ∈ tagsToWatch) v).

Definition lastMatch (tagsToWatch v : list string) : option string :=
  last (filter (λ t, t ∈ tagsToWatch) v).

(** The last node of the list whose instance key is [k]. *)
Definition lastWithKey (k : string) (nodes : list consul.CatalogService)
  : option consul.CatalogService :=
  last (filter (λ node, instanceKey node = k) nodes).

(** The state a schedule leads to (the initial state if it cannot run). *)
Definition after (tags : list string) (ls : list label) : state :=
  default (init tags) (exec ls (init tags)).

(** ** Scenarios

    Schedules for one service, "web", written as the pieces they are made
    of; [LRun], the first step of every run, starts [watchServices]. *)

Definition webProd : catalog := {[ "web"%string := ["prod"%string] ]}.

Definition webTwoTags : catalog := {[ "web"%string := ["a"%string; "b"%string] ]}.

Definition node1 : consul.CatalogService :=
  consul.mkNode "node-1" "10.0.0.1" "10.0.0.5" 8080 ["prod"%string].

(** [watchServices] gets a catalog that lists "web", takes the mutex, finds
    the service new, caches it, queues it and releases the mutex. *)
Definition discover (services : catalog) (index : Z) : list label :=
  [LCatReply (Ok services index); LCat; LCat; LCatRange "web"; LCat; LCat;
   LCatRange "web"; LCat; LCat].

(** [Run] receives the new record, starts its watch loop, sets [running]
    and sends NEW. *)
Definition dispatchNew : list label :=
  [LRunUpdate; LRun; LRun; LRun; LRun; LRun].

(** [watchServices] gets an empty catalog, takes the mutex, marks "web"
    removed, queues it, deletes it from the cache and releases the mutex. *)
Definition remove (index : Z) : list label :=
  [LCatReply (Ok ∅ index); LCat; LCat; LCat; LCatRange "web"; LCat; LCat;
   LCat; LCat].

(** [Run] receives the removed record, closes its [done] and sends
    DELETED. *)
Definition dispatchDeleted : list label :=
  [LRunUpdate; LRun; LRun; LRun].

(** The [i]-th watch loop gets one node, stores index and instances. *)
Definition fetch (i : nat) (index : Z) : list label :=
  [LWatchReply i (Ok [node1] index); LWatch i].

(** The [i]-th watch loop takes the mutex and polls [service.done]. *)
Definition lockAndCheck (i : nat) : list label := [LWatch i; LWatch i].

(** The [i]-th watch loop sends CHANGED and releases the mutex. *)
Definition sendAndUnlock (i : nat) : list label := [LWatch i; LWatch i].

Definition refresh (i : nat) (index : Z) : list label :=
  fetch i index ++ lockAndCheck i ++ sendAndUnlock i.

(** The caller closes [done]; [Run] takes that case of its [select], runs
    [stop] over the cache and closes [upstream]. *)
Definition shutdown (cached : list string) : list label :=
  [LStop; LRunDone; LRun] ++ (LRunRange <$> cached) ++ [LRun; LRun; LRun].

(** "web" appears and is dispatched; it gets instances; it disappears and
    is dispatched. *)
Definition lifeOfWeb : list label :=
  LRun :: discover webProd 1 ++ dispatchNew ++ refresh 0 5 ++ remove 2
       ++ dispatchDeleted.

(** The watch loop of "web" has passed its check when [Run] handles the
    removal; it sends afterwards. *)
Definition lateChanged : list label :=
  LRun :: discover webProd 1 ++ dispatchNew ++ fetch 0 5 ++ remove 2
       ++ lockAndCheck 0 ++ dispatchDeleted ++ sendAndUnlock 0.

(** The watch loop of "web" sends before [Run], which started it, has sent
    NEW. *)
Definition earlyChanged : list label :=
  LRun :: discover webProd 1 ++ [LRunUpdate; LRun; LRun; LRun] ++ refresh 0 5
       ++ [LRun; LRun].

(** "web" appears, disappears and appears again; only then do instances
    arrive, for the second record. *)
Definition rediscovered : list label :=
  LRun :: discover webProd 1 ++ dispatchNew ++ remove 2 ++ dispatchDeleted
       ++ discover webProd 3 ++ dispatchNew ++ refresh 1 5.

(** "web" is removed from the cache, and the caller stops the registry
    before [Run] has received the removal. *)
Definition stopBeforeRemoval : list label :=
  LRun :: discover webProd 1 ++ dispatchNew ++ remove 2 ++ shutdown [].

(** [watchServices] holds the mutex and is about to visit "web", which
    carries two watched tags. *)
Definition beforeTagChoice : list label :=
  [LRun; LCatReply (Ok webTwoTags 1); LCat; LCat].

(** "web" has been discovered and dispatched: its watch loop and
    [watchServices] are both about to query Consul. *)
Definition watching : list label :=
  LRun :: discover webProd 1 ++ dispatchNew.

(** ** The claims as they are stated *)

(** The writes to the cache and to the fields of a record. *)
Definition mutates (a : action) : Prop :=
  match a with
  | ACacheInsert _ _ | ACacheDelete _ | ASetRemoved _ | ASetRunning _
  | ASetLastIndex _ _ | ASetInstances _ => True
  | _ => False
  end.

(** C3 as stated: every such write is made under the mutex. *)
Definition writesUnderLock (tr : list entry) : Prop :=
  Forall (λ e, mutates (act e) → underLock e) tr.

(** C5 as stated, its last part: [running] is set under the mutex. *)
Definition runningUnderLock (tr : list entry) : Prop :=
  Forall (λ e, (∃ r, act e = ASetRunning r) → underLock e) tr.

(** C1 as stated: no update of any type for a record once its [done] has
    been closed. *)
Definition silentAfterCancel (tr : list entry) : Prop :=
  ∀ a r ty, never_after (closes a r) (emits ty r) tr.

(** The types of the updates sent for the service [name], in order. *)
Definition updatesOf (name : string) (tr : list entry) : list registry.UpdateType :=
  omap (λ e, match act e with
             | AEmit _ u =>
                 if decide (registry.ServiceName u = name)
                 then Some (registry.UpdateType_ u) else None
             | _ => None
             end) tr.

(** C4 as stated: before a CHANGED there is exactly one NEW, and after a
    DELETED there is no CHANGED. *)
Definition oneNewBeforeChanged (us : list registry.UpdateType) : Prop :=
  ∀ pre post,
    us = pre ++ registry.CHANGED :: post →
    length (filter (λ u, u = registry.NEW) pre) = 1%nat.

Definition noChangedAfterDeleted (us : list registry.UpdateType) : Prop :=
  ∀ pre post, us = pre ++ registry.DELETED :: post → registry.CHANGED ∉ post.

Definition ordered (us : list registry.UpdateType) : Prop :=
  oneNewBeforeChanged us ∧ noChangedAfterDeleted us.

(** C7 as stated, its last part: once [upstream] is closed no watch loop
    is left running uncancelled. *)
Definition noLoopLeft (s : state) : Prop :=
  upstreamClosed s = true →
  ∀ i r pc, watchers s !! i = Some (r, pc) →
            pc = W_returned ∨ done (heap s r) = true.

(** ** Vocabulary for the retry and no-change claims *)

(** What one failed query leaves in the history: the logged error and the
    sleep of [consulRetryInterval]. *)
Definition errorRound (t : tid) (s : state) : list entry :=
  [mkEntry t (mutex s) ALogError;
   mkEntry t (mutex s) (ASleep consulRetryInterval)].

(** The label carries a reply to the [i]-th watch loop. *)
Definition repliesTo (i : nat) (l : label) : Prop :=
  match l with
  | LWatchReply j _ => j = i
  | _ => False
  end.

(** An update sent by the [i]-th watch loop. *)
Definition sentBy (i : nat) (e : entry) : Prop :=
  who e = TWatch i ∧ ∃ r u, act e = AEmit r u.

#[global] Instance sentBy_dec i e : Decision (sentBy i e).
Proof.
  unfold sentBy. destruct (act e);
    try (right; intros [_ (? & ? & ?)]; discriminate).
  destruct (decide (who e = TWatch i)); [left; eauto|right; tauto].
Defined.

(** How many updates the [i]-th watch loop has sent. *)
Definition changedBy (i : nat) (tr : list entry) : nat :=
  length (filter (sentBy i) tr).

(** How many updates a watch loop can still send before its next query. *)
Definition budget (pc : watch_pc) : nat :=
  match pc with
  | W_store _ _ | W_lock | W_check | W_send => 1
  | _ => 0
  end.

(** Between two replies, the index of the last reply is the one about to
    be stored or the one stored. *)
Definition settled (index : Z) (r : rid) (pc : watch_pc) (s : state) : Prop :=
  match pc with
  | W_store _ index' => index' = index
  | W_sleep => False
  | _ => lastIndex (heap s r) = index
  end.

(** ** Vocabulary for the further properties *)

(** The separator that [fmt.Sprintf("%s:%d", ...)] puts into a key. *)
Definition colon : Ascii.ascii :=
  Ascii.Ascii false true false true true true false false.

(** The pair that the key of an instance is made of. *)
Definition endpoint (node : consul.CatalogService) : string * Z :=
  (consul.ServiceAddress node, consul.ServicePort node).


(** *** Names and tags of the records *)

(** An update as [Run] and [watchService] build it: the name and the tag
    of its record, and instances only in a CHANGED. *)
Definition wellFormed (s : state) (e : entry) : Prop :=
  ∀ r u, act e = AEmit r u →
    registry.ServiceName u = Name (heap s r) ∧
    registry.Tag u = tag (heap s r) ∧
    (registry.UpdateType_ u ≠ registry.CHANGED →
     registry.ServiceInstances u = ∅).

Record cache_inv (tags : list string) (s : state) : Prop := {
  cache_tags : tagsToWatch s = tags;
  cache_name : ∀ k r, watchedServices s !! k = Some r → Name (heap s r) = k;
  cache_tag : ∀ r, (r < next s)%nat → tag (heap s r) ∈ tags;
  cache_sent : Forall (wellFormed s) (trace s) }.


(** *** Leaving [Run] *)

(** [Run] has taken the case [<-done] of its [select]. *)
Definition runLeaving (pc : run_pc) : bool :=
  match pc with
  | R_stop_lock | R_stop_range _ | R_stop_unlock | R_close_upstream
  | R_returned => true
  | _ => false
  end.

(** Program points from which [watchServices] does not reach its two
    [range] loops once [done] is closed. *)
Definition catFrozen (pc : cat_pc) : bool :=
  match pc with
  | C_query | C_sleep | C_lock _ | C_select _ | C_exit_unlock | C_returned => true
  | _ => false
  end.

Record leave_inv (s : state) : Prop := {
  leave_flag : runLeaving (runPc s) = true → stopCh s = true;
  leave_upstream : upstreamClosed s = true ↔ runPc s = R_returned;
  leave_frozen :
    runStopping (runPc s) = true → from_option catFrozen true (catPc s) = true }.

(** [watchServices] is between [srv.removed = true] for the record [r]
    cached under [k] and [delete(cr.watchedServices, k)]. *)
Definition removing (k : string) (r : rid) (pc : option cat_pc) : Prop :=
  match pc with
  | Some (C_send_removed _ _ k' r') => k' = k ∧ r' = r
  | Some (C_delete _ _ k') => k' = k
  | _ => False
  end.

(** [srv.removed = true] for the record [r]. *)
Definition marksRemoved (r : rid) (e : entry) : Prop :=
  match act e with
  | ASetRemoved r' => r' = r
  | _ => False
  end.

Arguments marksRemoved _ !_ /.

Record removing_inv (s : state) : Prop := {
  removing_cached : ∀ k r,
    watchedServices s !! k = Some r → removed (heap s r) = true →
    removing k r (catPc s);
  removing_marked : ∀ r,
    removed (heap s r) = true → Exists (marksRemoved r) (trace s);
  removing_closed : ∀ r,
    done (heap s r) = true → ∃ a, Exists (closes a r) (trace s) }.

(** While [stop] ranges over the cache, the names still to visit are those
    of the records whose [done] is open; afterwards none is open. *)
Record stop_inv (s : state) : Prop := {
  stop_todo : ∀ todo k r,
    runPc s = R_stop_range todo → watchedServices s !! k = Some r →
    (k ∈ todo ↔ done (heap s r) = false);
  stop_done : ∀ k r,
    runPc s = R_stop_unlock ∨ runPc s = R_close_upstream ∨ runPc s = R_returned →
    watchedServices s !! k = Some r → done (heap s r) = true }.

(** No DELETED has been sent yet for the record [Run] is about to send
    one for. *)
Record deleted_inv (s : state) : Prop := {
  deleted_pending : ∀ r,
    runPc s = R_send_deleted r → ¬ Exists (emits registry.DELETED r) (trace s);
  deleted_once : ∀ r, at_most_once (emits registry.DELETED r) (trace s);
  deleted_marked : ∀ r,
    preceded_by (marksRemoved r) (emits registry.DELETED r) (trace s) }.

(** With no tag to watch: [watchServices] gets a catalog that lists "web",
    takes the mutex, ignores the service, finds the cache empty and
    releases the mutex. *)
Definition ignoredRound : list label :=
  [LRun; LCatReply (Ok webProd 1); LCat; LCat; LCatRange "web"; LCat; LCat; LCat].


(** "web" appears and disappears before [Run] has received anything: its
    record is queued twice, marked removed both times [Run] looks at it.
    [Run] has closed its [done] once and is about to close it again. *)
Definition removedBeforeDispatch : list label :=
  LRun :: discover webProd 1 ++ remove 2 ++ dispatchDeleted ++ [LRunUpdate; LRun].

(** "web" is being watched when the caller stops the registry. *)
Definition stopWatching : list label := watching ++ shutdown ["web"%string].


(** *** From a reply to its CHANGED *)

(** The CHANGED that the watch loop of the record [r] sends for the nodes
    of a reply. *)
Definition changedFor (s : state) (r : rid) (nodes : list consul.CatalogService)
  : registry.ServiceUpdate :=
  registry.mkUpdate (Name (heap s r)) registry.CHANGED (buildInstances nodes)
                    (tag (heap s r)).

(** Between a reply with new [nodes] and [index] and the next reply: they
    are about to be stored in the record, or they are stored. *)
Definition carrying (nodes : list consul.CatalogService) (index : Z) (r : rid)
    (pc : watch_pc) (s : state) : Prop :=
  match pc with
  | W_store nodes' index' => nodes' = nodes ∧ index' = index
  | W_sleep => False
  | _ => Instances (heap s r) = buildInstances nodes ∧ lastIndex (heap s r) = index
  end.

(** *** One pass of [watchServices] over a reply *)

(** [watchServices] caches the service [k] of the catalog [services] if it
    is not cached yet. *)
Definition wanted (tags : list string) (services : catalog) (k : string) : Prop :=
  ∃ v, services !! k = Some v ∧ (matchTags tags v).1 = false.

(** The first loop has visited all names but [todo]: what was cached is
    cached, and of the other names those visited and wanted are. *)
Definition adding (tags : list string) (services : catalog)
    (cache0 : gmap string rid) (todo : list string) (s : state) : Prop :=
  (∀ k r, cache0 !! k = Some r → watchedServices s !! k = Some r) ∧
  (∀ k, cache0 !! k = None →
        (is_Some (watchedServices s !! k) ↔ (k ∉ todo) ∧ wanted tags services k)).

(** The second loop has visited all names but [todo]: of what was cached,
    the names visited and no longer listed are deleted and their records
    marked removed; the names added by the first loop are all there. *)
Definition deleting (tags : list string) (services : catalog)
    (cache0 : gmap string rid) (todo : list string) (s : state) : Prop :=
  (∀ k r, cache0 !! k = Some r →
          if decide ((k ∉ todo) ∧ services !! k = None)
          then watchedServices s !! k = None ∧ removed (heap s r) = true
          else watchedServices s !! k = Some r) ∧
  (∀ k, cache0 !! k = None →
        (is_Some (watchedServices s !! k) ↔ wanted tags services k)).

(** Where a pass over [services] that started with the cache [cache0]
    stands. *)
Definition pass (tags : list string) (services : catalog)
    (cache0 : gmap string rid) (s : state) : Prop :=
  (∀ k r, cache0 !! k = Some r → (r < next s)%nat) ∧
  match catPc s with
  | Some (C_lock sv) | Some (C_select sv) =>
      sv = services ∧ watchedServices s = cache0
  | Some (C_range_services sv todo) | Some (C_send_new sv todo _) =>
      sv = services ∧ adding tags services cache0 todo s
  | Some (C_range_cache sv todo) =>
      sv = services ∧ deleting tags services cache0 todo s
  | Some (C_send_removed sv todo k _) | Some (C_delete sv todo k) =>
      sv = services ∧ (k ∉ todo) ∧ services !! k = None ∧
      (∀ r, watchedServices s !! k = Some r → removed (heap s r) = true) ∧
      deleting tags services cache0 (k :: todo) s
  | Some C_unlock | Some C_query => deleting tags services cache0 [] s
  | Some C_exit_unlock | Some C_returned => True
  | Some C_sleep | None => False
  end.

(** A step of [watchServices] that starts a new pass. *)
Definition catReplies (l : label) : Prop :=
  match l with
  | LCatReply _ => True
  | _ => False
  end.


(** *** Polls of [service.done] *)

(** The [select] of [watchService] finds [service.done] open. *)
Definition pollsOpen (r : rid) (e : entry) : Prop :=
  match act e with
  | ACheckDone r' false => r' = r
  | _ => False
  end.

Arguments pollsOpen _ !_ /.

(** Of the entries that come later than one satisfying [P], at most one
    satisfies [Q]. *)
Definition at_most_once_after (P Q : entry → Prop) (tr : list entry) : Prop :=
  ∀ i j k ei ej ek,
    tr !! i = Some ei → tr !! j = Some ej → tr !! k = Some ek →
    P ei → Q ej → Q ek → (i < j)%nat → (i < k)%nat → j = k.

(** A poll that comes after a close finds the channel closed; a watch loop
    that stands between its check and its send has polled the channel
    open and has sent nothing since a close; so at most one CHANGED comes
    after a close. *)
Record poll_inv (s : state) : Prop := {
  poll_open : ∀ a r, never_after (closes a r) (pollsOpen r) (trace s);
  poll_sending : ∀ i r a,
    watchers s !! i = Some (r, W_send) →
    Exists (pollsOpen r) (trace s) ∧
    never_after (closes a r) (emits registry.CHANGED r) (trace s);
  poll_changed : ∀ r,
    preceded_by (pollsOpen r) (emits registry.CHANGED r) (trace s);
  poll_late : ∀ a r,
    at_most_once_after (closes a r) (emits registry.CHANGED r) (trace s) }.

(** "web" is watched, removed and dispatched; its watch loop polls once
    more and returns.  "web" comes back and is watched again, the caller
    stops the registry, and the second watch loop polls once more. *)
Definition twoCancellations : list label :=
  lifeOfWeb ++ fetch 0 6 ++ lockAndCheck 0 ++ [LWatch 0]
    ++ discover webProd 3 ++ dispatchNew ++ refresh 1 5
    ++ shutdown ["web"%string] ++ fetch 1 7 ++ lockAndCheck 1.

(** After the run [lateChanged] the watch loop of "web" polls once more. *)
Definition lateChangedThenPoll : list label :=
  lateChanged ++ fetch 0 6 ++ lockAndCheck 0.


(** * Properties *)

(** ** Case analysis of a step *)

Ltac step_cases H :=
  unfold step in H;
  destruct (panicked _) eqn:Hpanic; [discriminate H|];
  match type of H with match ?l with _ => _ end = _ => destruct l end;
  [ unfold stopStep in H | unfold runStep in H | unfold runSelectDone in H
  | unfold runSelectUpdate in H | unfold runStopRange in H | unfold catStep in H
  | unfold catReply in H | unfold catRange in H | unfold watchStep in H
  | unfold watchReply in H ];
  repeat (case_match; try discriminate H);
  unfold Lock, sendUpdate in H; simpl in H;
  repeat (case_match; try discriminate H);
  simpl in H; simplify_eq;
  unfold closeDone, sendUpstream;
  repeat case_match;
  repeat match goal with H : decide _ = _ |- _ => clear H end;
  unfold Unlock, addService, goto, store, record, panic.

Lemma lookup_goto (ws : list (rid * watch_pc)) i j w w0 :
  ws !! i = Some w0 →
  <[i := w]> ws !! j = if decide (i = j) then Some w else ws !! j.
Proof.
  intros H. case_decide; subst.
  - apply list_lookup_insert_eq. by eapply lookup_lt_Some.
  - by apply list_lookup_insert_ne.
Qed.

Lemma lookup_launch (ws : list (rid * watch_pc)) j w :
  (ws ++ [w]) !! j = if decide (j = length ws) then Some w else ws !! j.
Proof.
  case_decide; subst.
  - by rewrite lookup_app_r, Nat.sub_diag.
  - destruct (decide (j < length ws)%nat).
    + by rewrite lookup_app_l.
    + rewrite !lookup_ge_None_2; [done|lia|rewrite length_app; simpl; lia].
Qed.

Lemma mutex_inv_init tags : mutex_inv (init tags).
Proof. split; [done|]. by intros [| |[|i]]. Qed.

Lemma mutex_inv_step s l s' : mutex_inv s → step l s = Some s' → mutex_inv s'.
Proof.
  intros [H0 HI] Hs. step_cases Hs.
  all: split; [simpl; intros Hr; try (specialize (H0 Hr)); congruence|].
  all: intros t.
  all: pose proof (HI TRun) as HR; pose proof (HI TCatalog) as HC.
  all: try pose proof (HI (TWatch i)) as HW.
  all: match type of HI with
       | ∀ _, critical ?s0 _ = _ ↔ _ =>
           pose proof (HI (TWatch (length (watchers s0)))) as HL;
           pose proof (HI t) as Ht';
           unfold critical in *; simpl in *;
           rewrite (lookup_ge_None_2 (watchers s0) (length (watchers s0))) in HL by lia
       end.
  all: try rewrite H0 in * by done.
  all: repeat match goal with H : ?x = _ |- _ => rewrite H in * end; simpl in *.
  all: destruct t as [| |j]; simpl in *; simplify_eq; try done;
    try (by intuition congruence).
  all: try (erewrite lookup_goto by done; case_decide; simplify_eq; simpl in *;
            try done; by intuition congruence).
  all: try (rewrite lookup_launch; case_decide; simplify_eq; simpl in *;
            try done; by intuition congruence).
Qed.

Lemma reachable_inv (P : state → Prop) tags :
  P (init tags) →
  (∀ s l s', reachable tags s → P s → step l s = Some s' → P s') →
  ∀ s, reachable tags s → P s.
Proof. intros Hi Hs s Hr. induction Hr; eauto. Qed.

Lemma reachable_mutex_inv tags s : reachable tags s → mutex_inv s.
Proof.
  apply reachable_inv; [apply mutex_inv_init|].
  intros ? ? ? _. apply mutex_inv_step.
Qed.

Lemma exec_reachable tags ls s s' :
  reachable tags s → exec ls s = Some s' → reachable tags s'.
Proof.
  revert s. induction ls as [|l ls IH]; intros s Hr He; simpl in He.
  - by simplify_eq.
  - destruct (step l s) as [s1|] eqn:Hs; [|done]. simpl in He.
    eapply IH; [|done]. by eapply reachable_step.
Qed.

Lemma allocated_mono s s' o :
  (next s ≤ next s')%nat → allocated s o → allocated s' o.
Proof. intros Hn Ha r Hr. specialize (Ha r Hr). lia. Qed.

Lemma fresh_inv_init tags : fresh_inv (init tags).
Proof. split; simpl; try done; by constructor. Qed.

Lemma fresh_inv_step s l s' : fresh_inv s → step l s = Some s' → fresh_inv s'.
Proof.
  intros [Hc Hu Hw Hr Hp Ht] Hs. step_cases Hs.
  all: try match goal with
       | Hw : Forall _ (watchers ?s), H : watchers ?s !! _ = Some _ |- _ =>
           pose proof (Forall_lookup_1 _ _ _ _ Hw H) as Hn; simpl in Hn
       end.
  all: try match goal with
       | Hu : Forall _ (_ :: _) |- _ => rewrite Forall_cons in Hu; destruct Hu
       end.
  all: try match goal with
       | H : catPc ?s = Some _, Hp : ∀ pc, catPc ?s = Some pc → _ |- _ =>
           specialize (Hp _ H)
       end.
  all: split; unfold allocated in *; simpl in *.
  all: repeat match goal with H : runPc _ = _ |- _ => rewrite H in *; clear H end.
  all: simpl in *.
  all: rewrite ?Forall_app, ?Forall_singleton; simpl.
  all: try done.
  all: repeat split; try done.
  all: try (by intros; simplify_eq; eauto).
  all: try (by apply Forall_insert).
  all: try (by intros ?? [??]%lookup_delete_Some; eauto).
  all: try (by eapply Forall_impl; [done|]; simpl; intros; auto with lia).
  all: try (by intros; simplify_eq; auto with lia).
  - intros k0 r [[-> <-]|[? ?%Hc]]%lookup_insert_Some; lia.
  - intros r ?%Hr. lia.
  - intros; simplify_eq/=. lia.
  - eapply Forall_impl; [done|]. simpl. intros e' He r ?%He. lia.
  - intros; simplify_eq/=. eauto.
Qed.

Lemma reachable_fresh_inv tags s : reachable tags s → fresh_inv s.
Proof.
  apply reachable_inv; [apply fresh_inv_init|].
  intros ? ? ? _. apply fresh_inv_step.
Qed.

(** ** The history, one entry at a time *)

Lemma never_after_nil P Q : never_after P Q [].
Proof. intros i j e1 e2 H. by rewrite lookup_nil in H. Qed.

Lemma never_after_snoc P Q tr e :
  never_after P Q tr → (Q e → ¬ Exists P tr) → never_after P Q (tr ++ [e]).
Proof.
  intros Hn He i j e1 e2 H1 H2 HP HQ Hij.
  apply lookup_snoc_Some in H1 as [[Hi H1]|[-> <-]];
    apply lookup_snoc_Some in H2 as [[Hj H2]|[-> <-]]; try lia.
  - exact (Hn i j e1 e2 H1 H2 HP HQ Hij).
  - apply (He HQ). apply Exists_exists. exists e1. split; [|done].
    by eapply list_elem_of_lookup_2.
Qed.

Lemma preceded_by_nil P Q : preceded_by P Q [].
Proof. intros j e2 H. by rewrite lookup_nil in H. Qed.

Lemma preceded_by_snoc P Q tr e :
  preceded_by P Q tr → (Q e → Exists P tr) → preceded_by P Q (tr ++ [e]).
Proof.
  intros Hp He j e2 H2 HQ.
  apply lookup_snoc_Some in H2 as [[Hj H2]|[-> <-]].
  - destruct (Hp j e2 H2 HQ) as (i & e1 & Hi & H1 & HP).
    exists i, e1. split_and!; [done| |done]. by apply lookup_app_l_Some.
  - apply He, Exists_exists in HQ as (e1 & [i Hi]%list_elem_of_lookup_1 & HP).
    exists i, e1. split_and!; [by eapply lookup_lt_Some| |done].
    by apply lookup_app_l_Some.
Qed.

Lemma preceded_by_Exists P Q tr : preceded_by P Q tr → Exists Q tr → Exists P tr.
Proof.
  intros Hp (e2 & [j Hj]%list_elem_of_lookup_1 & HQ)%Exists_exists.
  destruct (Hp j e2 Hj HQ) as (i & e1 & _ & H1 & HP).
  apply Exists_exists. exists e1. split; [|done]. by eapply list_elem_of_lookup_2.
Qed.

Lemma at_most_once_nil P : at_most_once P [].
Proof. intros i j e1 e2 H. by rewrite lookup_nil in H. Qed.

Lemma at_most_once_snoc P tr e :
  at_most_once P tr → (P e → ¬ Exists P tr) → at_most_once P (tr ++ [e]).
Proof.
  intros Ha He i j e1 e2 H1 H2 HP1 HP2.
  apply lookup_snoc_Some in H1 as [[Hi H1]|[-> <-]];
    apply lookup_snoc_Some in H2 as [[Hj H2]|[-> <-]]; try done.
  - exact (Ha i j e1 e2 H1 H2 HP1 HP2).
  - destruct (He HP2). apply Exists_exists. exists e1. split; [|done].
    by eapply list_elem_of_lookup_2.
  - destruct (He HP1). apply Exists_exists. exists e2. split; [|done].
    by eapply list_elem_of_lookup_2.
Qed.

(** ** Lock discipline *)

Lemma author_mono s s' e :
  (∀ t r, watches s t r → watches s' t r) → author s e → author s' e.
Proof.
  intros Hw. unfold author. repeat case_match; auto.
Qed.

Lemma watches_insert (ws : list (rid * watch_pc)) i n pc pc0 j r :
  ws !! i = Some (n, pc0) →
  (∃ pc', ws !! j = Some (r, pc')) →
  ∃ pc', <[i := (n, pc)]> ws !! j = Some (r, pc').
Proof.
  intros Hi [pc' Hj]. erewrite lookup_goto by done.
  case_decide; simplify_eq; eauto.
Qed.

Lemma watches_app (ws : list (rid * watch_pc)) w j r :
  (∃ pc', ws !! j = Some (r, pc')) → ∃ pc', (ws ++ [w]) !! j = Some (r, pc').
Proof. intros [pc' Hj]. exists pc'. by apply lookup_app_l_Some. Qed.

Ltac solve_watches :=
  let t := fresh "t" in
  intros t ?; destruct t; simpl; try done;
  first [ done | by eapply watches_insert | by apply watches_app ].

Lemma discipline_init tags : discipline (init tags).
Proof. constructor. Qed.

Lemma discipline_step s l s' :
  mutex_inv s → discipline s → step l s = Some s' → discipline s'.
Proof.
  intros [_ HM] HD Hs. unfold discipline in *. step_cases Hs.
  all: simpl; rewrite ?Forall_app, ?Forall_singleton.
  all: repeat split.
  all: try by (eapply Forall_impl; [exact HD|]; intros ? [? ?]; split; [done|];
               eapply author_mono; [|done]; solve_watches).
  all: unfold underLock, author; simpl; try done.
  all: try (intros _).
  all: try by (apply HM; unfold critical; simpl;
               repeat match goal with H : _ = _ |- _ => rewrite H end).
  all: try by (intros Hm; apply (proj2 (HM _)) in Hm; unfold critical in Hm;
               simpl in Hm;
               repeat match goal with H : _ = _ |- _ => rewrite H in Hm end).
  all: try by (erewrite lookup_goto by done; case_decide; eauto).
  all: intros Hm; apply (proj2 (HM _)) in Hm; unfold critical in Hm; simpl in Hm.
  all: by rewrite H in Hm.
Qed.

Lemma reachable_discipline tags s : reachable tags s → discipline s.
Proof.
  apply reachable_inv; [apply discipline_init|].
  intros ? ? ? ?%reachable_mutex_inv. by apply discipline_step.
Qed.

(** ** One watch loop per record *)

Lemma heap_frame {A} (proj : consulService → A) (f : consulService → consulService)
    (h : rid → consulService) (a r : rid) :
  (∀ c, proj (f c) = proj c) → proj (<[a := f (h a)]> h r) = proj (h r).
Proof.
  intros Hf. destruct (decide (a = r)) as [->|].
  - by rewrite fn_lookup_insert.
  - by rewrite fn_lookup_insert_ne.
Qed.

Lemma heap_alloc (h : rid → consulService) (a r : rid) c :
  (r < a)%nat → <[a := c]> h r = h r.
Proof. intros. rewrite fn_lookup_insert_ne; [done|lia]. Qed.

Lemma heap_store_running (h : rid → consulService) (a r : rid) v :
  running (<[a := with_running v (h a)]> h r)
  = if decide (a = r) then v else running (h r).
Proof.
  case_decide; subst.
  - by rewrite fn_lookup_insert.
  - by rewrite fn_lookup_insert_ne.
Qed.

(** Facts about allocation, put in the context. *)
Ltac fresh_facts Fw Fr :=
  unfold allocated in Fr; simpl in Fr;
  try (let H := fresh "Hlt" in pose proof (Fr _ eq_refl) as H);
  repeat match goal with
    | H : watchers ?s !! ?i = Some (?r, ?pc) |- _ =>
        lazymatch goal with
        | _ : (r < next s)%nat |- _ => fail
        | _ => pose proof (Forall_lookup_1 _ _ _ _ Fw H : (r < next s)%nat)
        end
    end.

Ltac lookup_cases :=
  repeat match goal with
    | H : <[_ := _]> _ !! _ = Some _, H0 : _ !! _ = Some _ |- _ =>
        erewrite lookup_goto in H by exact H0; case_decide; simplify_eq
    | H : (_ ++ [_]) !! _ = Some _ |- _ =>
        rewrite lookup_launch in H; case_decide; simplify_eq
    end.

Lemma launch_inv_init tags : launch_inv (init tags).
Proof. split; simpl; try done; intros; by simplify_eq. Qed.

Lemma launch_inv_step s l s' :
  fresh_inv s → launch_inv s → step l s = Some s' → launch_inv s'.
Proof.
  intros [Fc Fu Fw Fr Fp Ft] [Hr Hp Hn Hu] Hs. step_cases Hs.
  all: split; simpl; intros.
  all: try match goal with H : runPc _ = _ |- _ => rewrite H in * end.
  all: rewrite ?(heap_frame running), ?heap_store_running in * by done.
  all: try done.
  all: lookup_cases.
  all: fresh_facts Fw Fr.
  all: rewrite ?heap_alloc in * by done.
  all: repeat match goal with
    | H : watchers ?s !! ?i = Some (?r, ?pc) |- _ =>
        lazymatch goal with
        | _ : running (heap s r) = true ∨ _ |- _ => fail
        | _ => pose proof (Hr i r pc H)
        end
    end.
  all: try (by apply Hp).
  all: try (by intuition (simplify_eq; try congruence; eauto 2)).
  - destruct H0; simplify_eq. apply Hp; auto.
  - destruct (Hn i r pc eq_refl H0).
  - destruct (Hn j r pc' eq_refl H1).
  - case_decide; [by left|]. destruct H2; [by left|]. by simplify_eq.
  - rewrite heap_alloc; [by apply Hp|].
    apply Fr. destruct H0 as [H0|H0]; by rewrite H0.
Qed.

Lemma reachable_launch_inv tags s : reachable tags s → launch_inv s.
Proof.
  apply reachable_inv; [apply launch_inv_init|].
  intros ? ? ? ?%reachable_fresh_inv. by apply launch_inv_step.
Qed.

Lemma Exists_allocated s (P : entry → Prop) r :
  Forall (λ e, allocated s (actRid (act e))) (trace s) →
  (∀ e, P e → actRid (act e) = Some r) →
  Exists P (trace s) → (r < next s)%nat.
Proof.
  intros Ht HP (e & He & HPe)%Exists_exists.
  rewrite Forall_forall in Ht. by apply (Ht e He), HP.
Qed.

Lemma launches_rid r e : launches r e → actRid (act e) = Some r.
Proof. unfold launches. repeat case_match; simpl; intuition congruence. Qed.
Lemma setsRunning_rid r e : setsRunning r e → actRid (act e) = Some r.
Proof. unfold setsRunning. repeat case_match; simpl; intuition congruence. Qed.
Lemma emits_rid ty r e : emits ty r e → actRid (act e) = Some r.
Proof. unfold emits. repeat case_match; simpl; intuition congruence. Qed.
Lemma closes_rid a r e : closes a r e → actRid (act e) = Some r.
Proof. unfold closes. repeat case_match; simpl; intuition congruence. Qed.
Lemma seesCancelled_rid r e : seesCancelled r e → actRid (act e) = Some r.
Proof. unfold seesCancelled. repeat case_match; simpl; intuition congruence. Qed.

Lemma history_inv_init tags : history_inv (init tags).
Proof.
  split; simpl; intros;
    try apply at_most_once_nil; try apply preceded_by_nil;
    try (by match goal with H : Exists _ [] |- _ => apply Exists_nil in H end);
    done.
Qed.

Ltac ex_hyp :=
  repeat match goal with
    | H : Exists _ (_ ++ _) |- _ => apply Exists_app in H as [H|H]
    | H : Exists _ [_] |- _ =>
        apply Exists_cons in H as [H|H%Exists_nil]; [simpl in H|done]
    end.

Ltac ex_hyp' :=
  ex_hyp;
  repeat match goal with H : _ ∧ _ |- _ => destruct H end;
  simplify_eq; try done.

Ltac ex_goal :=
  rewrite ?Exists_app, ?Exists_cons, ?Exists_nil; simpl.

Ltac snoc_goal :=
  repeat first
    [ apply at_most_once_snoc; [|simpl; try (by intros []); try (by intros [? ?])]
    | apply preceded_by_snoc; [|simpl; try (by intros []); try (by intros [? ?])] ].

Lemma history_inv_step s l s' :
  fresh_inv s → launch_inv s → history_inv s → step l s = Some s' → history_inv s'.
Proof.
  intros HF HL HH Hs. step_cases Hs.
  all: destruct HF as [Fc Fu Fw Fr Fp Ft], HL as [Lr Lp Ln Lu],
         HH as [I1 I2 I3 I4 I5 I6 I7 I9 I10 I11].
  all: split; simpl; try assumption.
  all: try match goal with H : runPc _ = _ |- _ =>
              rewrite H in *; simpl in * end; try assumption.
  all: try done.
  all: try (intros r; snoc_goal; by auto).
  all: try (intros r Hex; ex_hyp'; try done;
                 rewrite ?(heap_frame running) by done; by auto).
  all: try (intros i' r' pc' Hw; lookup_cases; ex_goal; by eauto).
  all: try (intros r' Hex; ex_hyp; try done;
                 apply I1 in Hex as (j & pc' & Hj);
                 exists j;
                 first [ by eapply watches_insert; eauto
                       | by apply watches_app; eauto ]).
  all: try (lazymatch goal with |- match runPc _ with _ => _ end => idtac end;
                 destruct (runPc s); try done; ex_goal;
                 rewrite ?(heap_frame running) by done; simpl;
                 by intuition auto).
  - (* go: the launch is logged *)
    intros r Hex. ex_hyp'.
    + apply I1 in Hex as (j & pc' & Hj). exists j. apply watches_app; eauto.
    + exists (length (watchers s)), W_query. by rewrite lookup_launch, decide_True.
  - intros r. snoc_goal; [done|]. intros -> (j & pc' & Hj)%I1. eauto.
  - ex_goal. auto.
  - (* running = true *)
    intros r Hex. rewrite heap_store_running. case_decide; [done|].
    ex_hyp'; auto.
  - intros r. snoc_goal; [done|]. intros -> Hex%I4.
    rewrite Lp in Hex; [done|auto].
  - intros r Hex. rewrite heap_store_running. case_decide; [done|].
    ex_hyp'. auto.
  - rewrite heap_store_running, decide_True by done. split_and!; [done|ex_goal; auto|].
    intros Hex. ex_hyp'. apply I6 in Hex. rewrite Lp in Hex; [done|auto].
  - (* NEW is sent *)
    intros r. snoc_goal; [done|]. intros [-> _]. by destruct I7 as (_ & _ & ?).
  - intros r. snoc_goal; [done|]. intros [-> _]. by destruct I7 as (_ & ? & _).
  - (* a new record *)
    intros r Hex. ex_hyp'.
    rewrite heap_alloc; [auto|].
    eapply Exists_allocated; [done|apply setsRunning_rid|done].
  - intros r Hex. ex_hyp'.
    rewrite heap_alloc; [auto|].
    eapply Exists_allocated; [done|apply emits_rid|done].
  - destruct (runPc s) eqn:Hpc; try done.
    + ex_goal. auto.
    + ex_goal. rewrite heap_alloc; [intuition|]. by apply Fr.
  - (* CHANGED is sent by a launched loop *)
    intros r. snoc_goal; [done|]. intros [-> _]. eauto.
Qed.

Lemma reachable_history_inv tags s : reachable tags s → history_inv s.
Proof.
  apply reachable_inv; [apply history_inv_init|].
  intros ? ? ? Hr. apply history_inv_step.
  - by eapply reachable_fresh_inv.
  - by eapply reachable_launch_inv.
Qed.

Lemma heap_store_removed (h : rid → consulService) (a r : rid) v :
  removed (<[a := with_removed v (h a)]> h r)
  = if decide (a = r) then v else removed (h r).
Proof.
  case_decide; subst.
  - by rewrite fn_lookup_insert.
  - by rewrite fn_lookup_insert_ne.
Qed.

Lemma heap_store_done (h : rid → consulService) (a r : rid) v :
  done (<[a := with_done v (h a)]> h r)
  = if decide (a = r) then v else done (h r).
Proof.
  case_decide; subst.
  - by rewrite fn_lookup_insert.
  - by rewrite fn_lookup_insert_ne.
Qed.

Ltac never_goal :=
  repeat (apply never_after_snoc; [|simpl; try (by intros []); try (by intros [? ?])]).

Ltac run_frame :=
  repeat match goal with
    | |- _ ∧ _ => split
    | |- ∀ _, _ => intro
    | |- ¬ _ => intros ?
    end;
  ex_hyp'; try ex_goal;
  repeat match goal with H : _ ∧ _ |- _ => destruct H end;
  unfold not in *; by eauto.

Lemma cancel_inv_init tags : cancel_inv (init tags).
Proof.
  split; simpl; intros;
    try apply never_after_nil; try apply preceded_by_nil;
    try (by match goal with H : Exists _ [] |- _ => apply Exists_nil in H end);
    done.
Qed.

Lemma cancel_inv_step s l s' :
  fresh_inv s → cancel_inv s → step l s = Some s' → cancel_inv s'.
Proof.
  intros HF HC Hs. step_cases Hs.
  all: destruct HF as [Fc Fu Fw Fr Fp Ft], HC as [C1 C2 C3 C4 C5 C6 C7].
  all: split; simpl; try assumption.
  all: try match goal with H : runPc _ = _ |- _ =>
              rewrite H in *; simpl in * end; try assumption.
  all: try done.
  all: try (intros; snoc_goal; by auto).
  all: try (intros; never_goal; by auto).
  all: try (intros; ex_hyp';
                 rewrite ?(heap_frame done), ?(heap_frame removed) by done; by eauto).
  all: try (lazymatch goal with |- match runPc _ with _ => _ end => idtac end;
                 destruct (runPc s); try done; simpl in C4;
                 repeat match goal with
                   | |- _ ∧ _ => split
                   | |- ∀ _, _ => intro
                   | |- ¬ _ => intros Hex
                   end;
                 ex_hyp'; rewrite ?(heap_frame removed) by done; try ex_goal;
                 by intuition eauto 3).
  - (* the record received is not removed *)
    split.
    + intros [] Hex; [apply C2 in Hex; congruence|by apply C3 in Hex].
    + intros Hex. eapply preceded_by_Exists in Hex; [|apply C5].
      apply C2 in Hex. congruence.
  - (* close in Run *)
    intros a r Hex. rewrite heap_store_done. case_decide; [done|].
    ex_hyp'. eauto.
  - rewrite (heap_frame removed) by done. split; [done|]. ex_goal. auto.
  - intros r. snoc_goal; [done|]. intros [-> _]. by destruct C4.
  - destruct C4 as [C4 C4']. split; [intros a Hex|intros Hex]; ex_hyp'; naive_solver.
  - destruct C4 as [C4 C4']. split; [intros a Hex|intros Hex]; ex_hyp'; naive_solver.
  - intros a r. never_goal; [done|]. intros [-> _]. by destruct C4 as [C4 _].
  - intros r. never_goal; [done|]. intros [-> _]. by destruct C4 as [_ C4].
  - (* close in stop *)
    intros a r Hex. rewrite heap_store_done. case_decide; [done|].
    ex_hyp'. eauto.
  - (* a new record *)
    intros a r Hex. ex_hyp'. rewrite heap_alloc; [eauto|].
    eapply Exists_allocated; [done|apply closes_rid|done].
  - intros r Hex. ex_hyp'. rewrite heap_alloc; [eauto|].
    eapply Exists_allocated; [done|apply closes_rid|done].
  - destruct (runPc s) eqn:Hpc; try done; simpl in C4;
      (rewrite heap_alloc; [|by apply Fr]) || idtac.
    all: run_frame.
  - (* removed = true *)
    intros r Hex. rewrite heap_store_removed. case_decide; [done|].
    ex_hyp'. eauto.
  - destruct (runPc s) eqn:Hpc; try done; simpl in C4;
      rewrite ?heap_store_removed; try case_decide; try done.
    all: run_frame.
Qed.

Lemma reachable_cancel_inv tags s : reachable tags s → cancel_inv s.
Proof.
  apply reachable_inv; [apply cancel_inv_init|].
  intros ? ? ? Hr. apply cancel_inv_step. by eapply reachable_fresh_inv.
Qed.

Lemma watch_inv_init tags : watch_inv (init tags).
Proof.
  split; simpl; intros;
    try apply never_after_nil;
    try (by match goal with H : Exists _ [] |- _ => apply Exists_nil in H end);
    done.
Qed.

Lemma watch_inv_step s l s' :
  mutex_inv s → launch_inv s → cancel_inv s → watch_inv s →
  step l s = Some s' → watch_inv s'.
Proof.
  intros [_ HM] HL HC HW Hs. step_cases Hs.
  all: destruct HL as [_ _ Ln Lu], HC as [Cd _ _ _ _ _ _], HW as [W1 W2 W3 W4 W5].
  all: split; simpl; try assumption.
  all: try (intros; never_goal; by auto).
  all: try (intros r' Hex; ex_hyp'; 
                 apply W1 in Hex as (j & pc' & Hj); exists j;
                 first [ by eauto
                       | by eapply watches_insert; eauto
                       | by apply watches_app; eauto ]).
  all: try (intros i' r' pc' Hw Hex; lookup_cases; ex_hyp'; by eauto).
  all: try (intros i' r' Hw Hex; lookup_cases; ex_hyp'; unfold not in *; by eauto).
  all: try (intros i' r' pc' Hw Hex; lookup_cases; ex_hyp'; try (by eauto);
                 match goal with
                 | Hi : watchers _ !! _ = Some _ |- _ =>
                     by destruct (W2 _ _ _ Hi Hex); simplify_eq
                 end).
  - (* go *)
    intros i r pc Hw Hex. lookup_cases; ex_hyp'; [|by eauto].
    apply W1 in Hex as (j & pc' & Hj). destruct (Ln _ _ _ H Hj).
  - (* close in stop: no loop stands between its check and its send *)
    intros i r Hw Hex. ex_hyp'; [by eapply W3|].
    assert (mutex s = Some TRun) as Hm1
      by (apply HM; unfold critical; by rewrite H).
    assert (mutex s = Some (TWatch i)) as Hm2
      by (apply HM; unfold critical; by rewrite Hw).
    congruence.
  - (* the check finds the channel closed *)
    intros r Hex. ex_hyp'.
    + apply W1 in Hex as (j & pc' & Hj). exists j. by eapply watches_insert; eauto.
    + exists i, W_exit_unlock. apply list_lookup_insert_eq. by eapply lookup_lt_Some.
  - intros j r pc Hw Hex. lookup_cases; [by left|].
    ex_hyp'; [by eauto|]. by rewrite (Lu _ _ _ _ _ H Hw) in *.
  - (* the check finds the channel open *)
    intros j r Hw Hex. lookup_cases; ex_hyp'; [|by eapply W3].
    apply (Cd InStop) in Hex. congruence.
  - (* CHANGED is sent *)
    intros r. never_goal; [done|]. intros [-> _]. by eapply W3.
  - intros r. never_goal; [done|]. intros [-> _] Hex.
    by destruct (W2 _ _ _ H Hex).
Qed.

Lemma reachable_watch_inv tags s : reachable tags s → watch_inv s.
Proof.
  apply reachable_inv; [apply watch_inv_init|].
  intros ? ? ? Hr. apply watch_inv_step.
  - by eapply reachable_mutex_inv.
  - by eapply reachable_launch_inv.
  - by eapply reachable_cancel_inv.
Qed.

(** ** The instance map *)

Lemma foldl_instances_lookup nodes (m : gmap string registry.ServiceInstance) k :
  foldl (λ m node, <[instanceKey node := instanceOf node]> m) m nodes !! k
  = match lastWithKey k nodes with
    | Some node => Some (instanceOf node)
    | None => m !! k
    end.
Proof.
  revert m. induction nodes as [|node nodes IH] using rev_ind; intros m; [done|].
  rewrite foldl_app. simpl. unfold lastWithKey. rewrite filter_app.
  rewrite filter_cons, filter_nil.
  destruct (decide (instanceKey node = k)) as [<-|Hne].
  - rewrite last_snoc. by rewrite lookup_insert_eq.
  - rewrite app_nil_r, lookup_insert_ne by done. apply IH.
Qed.

Lemma buildInstances_lookup nodes k :
  buildInstances nodes !! k = instanceOf <$> lastWithKey k nodes.
Proof.
  unfold buildInstances. rewrite foldl_instances_lookup.
  by destruct (lastWithKey k nodes).
Qed.

Lemma foldl_instances_size nodes (m : gmap string registry.ServiceInstance) :
  (size (foldl (λ m node, <[instanceKey node := instanceOf node]> m) m nodes)
   ≤ size m + length nodes)%nat.
Proof.
  revert m. induction nodes as [|node nodes IH]; intros m; simpl; [lia|].
  etrans; [apply IH|].
  destruct (m !! instanceKey node) eqn:Hm.
  - rewrite map_size_insert_Some by done. lia.
  - rewrite map_size_insert_None by done. lia.
Qed.

Lemma lastWithKey_elem k nodes node :
  lastWithKey k nodes = Some node → node ∈ nodes ∧ instanceKey node = k.
Proof.
  unfold lastWithKey. intros H%last_Some_elem_of.
  apply list_elem_of_filter in H. tauto.
Qed.

(** [itoa] is the decimal rendering: reading it back gives the number. *)
Lemma itoa_decimal (n : Z) :
  Z.of_int <$> NilZero.int_of_string (itoa n) = Some n.
Proof.
  unfold itoa. rewrite NilZero.isi.
  - simpl. by rewrite DecimalZ.of_to.
  - destruct n; simpl; try done.
    intros [=H]. by apply DecimalPos.Unsigned.to_uint_nonnil in H.
  - destruct n; simpl; try done.
    intros [=H]. by apply DecimalPos.Unsigned.to_uint_nonnil in H.
Qed.

Lemma filter_none {A} (P : A → Prop) `{∀ x, Decision (P x)} (l : list A) :
  (∀ x, x ∈ l → ¬ P x) → filter P l = [].
Proof.
  induction l as [|x l IH]; intros Hl; [done|].
  rewrite filter_cons, decide_False; [|apply Hl; by left].
  apply IH. intros y Hy. apply Hl. by right.
Qed.

(** C10: when [watchService] rebuilds the instance map from the returned
    nodes, every instance is stored under the key "serviceAddress:servicePort"
    (the port in decimal); of several nodes with the same key the last one
    is the one stored, so the map has at most as many entries as there are
    nodes and can have fewer; and the [Port] of a stored instance is its
    node's service port in decimal. *)
Theorem C10_instance_map :
  (∀ nodes k,
     buildInstances nodes !! k = instanceOf <$> lastWithKey k nodes) ∧
  (∀ nodes node,
     node ∈ nodes →
     ∃ node',
       buildInstances nodes
         !! (consul.ServiceAddress node +:+ ":" +:+ itoa (consul.ServicePort node))
       = Some (instanceOf node') ∧
       node' ∈ nodes ∧ instanceKey node' = instanceKey node) ∧
  (∀ pre earlier mid later post,
     instanceKey earlier = instanceKey later →
     (∀ node, node ∈ post → instanceKey node ≠ instanceKey later) →
     buildInstances (pre ++ earlier :: mid ++ later :: post) !! instanceKey earlier
     = Some (instanceOf later)) ∧
  (∀ nodes, (size (buildInstances nodes) ≤ length nodes)%nat) ∧
  (∃ nodes, (size (buildInstances nodes) < length nodes)%nat) ∧
  (∀ nodes k inst,
     buildInstances nodes !! k = Some inst →
     ∃ node,
       node ∈ nodes ∧
       k = consul.ServiceAddress node +:+ ":" +:+ itoa (consul.ServicePort node) ∧
       registry.Port inst = itoa (consul.ServicePort node) ∧
       Z.of_int <$> NilZero.int_of_string (registry.Port inst)
       = Some (consul.ServicePort node)).
Proof.
  split_and!.
  - apply buildInstances_lookup.
  - intros nodes node Hin. rewrite buildInstances_lookup.
    fold (instanceKey node).
    destruct (lastWithKey (instanceKey node) nodes) as [node'|] eqn:Hl.
    + exists node'. apply lastWithKey_elem in Hl. by simpl.
    + unfold lastWithKey in Hl. apply last_None in Hl.
      by destruct (filter_nil_not_elem_of _ _ node Hl eq_refl).
  - intros pre earlier mid later post Hk Hpost.
    rewrite buildInstances_lookup. unfold lastWithKey.
    replace (pre ++ earlier :: mid ++ later :: post)
      with ((pre ++ earlier :: mid) ++ later :: post) by (by rewrite <-app_assoc).
    rewrite filter_app, filter_cons, decide_True by done.
    replace (filter (λ node, instanceKey node = instanceKey earlier) post)
      with (@nil consul.CatalogService).
    + by rewrite last_snoc.
    + symmetry. apply filter_none. intros node Hn. rewrite Hk. by apply Hpost.
  - intros nodes. etrans; [apply foldl_instances_size|]. by rewrite map_size_empty.
  - exists [consul.mkNode "a" "10.0.0.1" "10.0.0.5" 80 [];
            consul.mkNode "b" "10.0.0.2" "10.0.0.5" 80 []].
    vm_compute. lia.
  - intros nodes k inst. rewrite buildInstances_lookup.
    destruct (lastWithKey k nodes) as [node|] eqn:Hl; [|done].
    intros [= <-]. apply lastWithKey_elem in Hl as [Hin <-].
    exists node. split_and!; [done..|]. simpl. apply itoa_decimal.
Qed.

(** ** Construction *)

(** C9: [NewRegistry] fails with [ErrNoAddress] exactly when the list of
    addresses is empty, and then nothing has been built that could be run;
    with a non-empty list the client is made from the first address alone,
    whatever follows it. *)
Theorem C9_NewRegistry {Config Client E : Type} (DefaultConfig : Config)
    (setAddress : string → Config → Config) (NewClient : Config → Client + E)
    (config : registry.Config) :
  (NewRegistry DefaultConfig setAddress NewClient config = inr ErrNoAddress
   ↔ registry.Addresses config = []) ∧
  (∀ address rest,
     registry.Addresses config = address :: rest →
     NewRegistry DefaultConfig setAddress NewClient config
     = match NewClient (setAddress address DefaultConfig) with
       | inl client => inl (mkRegistry client ∅ (registry.TagsToWatch config))
       | inr err => inr (ClientError err)
       end ∧
     NewRegistry DefaultConfig setAddress NewClient config
     = NewRegistry DefaultConfig setAddress NewClient
         (registry.mkConfig [address] (registry.TagsToWatch config))).
Proof.
  unfold NewRegistry. split.
  - destruct (registry.Addresses config) as [|address rest]; [done|].
    split; [|done]. by destruct (NewClient _).
  - intros address rest ->. simpl. split; by destruct (NewClient _).
Qed.

(** C9 at a configuration with two addresses and a client library that
    accepts every address. *)
Lemma C9_NewRegistry_witness :
  let config := registry.mkConfig ["10.0.0.1:8500"; "10.0.0.2:8500"] ["prod"] in
  registry.Addresses config = ["10.0.0.1:8500"; "10.0.0.2:8500"] ∧
  NewRegistry (E := unit) "127.0.0.1:8500" (λ a _, a) inl config
  = inl (mkRegistry "10.0.0.1:8500" ∅ ["prod"]).
Proof.
  intros config. split; [reflexivity|].
  destruct (C9_NewRegistry (E := unit) "127.0.0.1:8500" (λ a _, a) inl config)
    as [_ H].
  destruct (H "10.0.0.1:8500" ["10.0.0.2:8500"] eq_refl) as [-> _].
  reflexivity.
Defined.

(** ** Choice of the tag *)

Lemma matchOne_spec tagsToWatch acc tag :
  matchOne tagsToWatch acc tag
  = if decide (tag ∈ tagsToWatch) then (false, tag) else acc.
Proof.
  unfold matchOne. revert acc.
  induction tagsToWatch as [|t ts IH]; intros acc; simpl.
  - destruct (decide (tag ∈ [])) as [Hin|]; [by apply elem_of_nil in Hin|done].
  - rewrite IH.
    destruct (decide (tag = t)), (decide (tag ∈ ts)), (decide (tag ∈ t :: ts));
      subst; try done; exfalso; set_solver.
Qed.

Lemma matchTags_spec tagsToWatch v :
  matchTags tagsToWatch v
  = match lastMatch tagsToWatch v with
    | Some t => (false, t)
    | None => (true, ""%string)
    end.
Proof.
  unfold matchTags, lastMatch. generalize (true, ""%string).
  induction v as [|t v IH] using rev_ind; intros acc; [done|].
  rewrite foldl_app, filter_app, filter_cons, filter_nil. simpl.
  rewrite matchOne_spec. destruct (decide (t ∈ tagsToWatch)).
  - by rewrite last_snoc.
  - rewrite app_nil_r. apply IH.
Qed.

Lemma after_reachable tags ls : reachable tags (after tags ls).
Proof.
  unfold after. destruct (exec ls (init tags)) as [s|] eqn:He; simpl.
  - eapply exec_reachable; [apply reachable_init|done].
  - apply reachable_init.
Qed.

Lemma after_reached tags ls : reached (after tags ls).
Proof. exists tags. apply after_reachable. Qed.

(** C2, as amended: one round of [for k, v := range services] creates a
    record exactly when a tag of the service is watched and the name is not
    cached; the record's tag is then the last tag of the service's list
    that is watched (the loops have no [break], so a later match replaces
    an earlier one), and the record is cached and about to be queued.
    In every other case nothing is created. *)
Theorem C2_last_matching_tag s k services todo s' :
  catPc s = Some (C_range_services services todo) →
  catRange k s = Some s' →
  match lastMatch (tagsToWatch s) (default [] (services !! k)),
        watchedServices s !! k with
  | Some t, None =>
      watchedServices s' = <[k := next s]> (watchedServices s) ∧
      Name (heap s' (next s)) = k ∧
      tag (heap s' (next s)) = t ∧
      catPc s' = Some (C_send_new services (visited k todo) (next s))
  | _, _ =>
      watchedServices s' = watchedServices s ∧ heap s' = heap s ∧
      next s' = next s ∧
      catPc s' = Some (C_range_services services (visited k todo))
  end.
Proof.
  intros Hpc Hs. unfold catRange in Hs. rewrite Hpc in Hs.
  destruct (decide (k ∈ todo)); [|done].
  rewrite matchTags_spec in Hs.
  destruct (lastMatch _ _) as [t|]; [|by simplify_eq].
  destruct (watchedServices s !! k); simplify_eq; [done|].
  unfold addService. simpl. by rewrite fn_lookup_insert.
Qed.

(** C2 at "web" with the tags [a; b], both watched. *)
Lemma C2_last_matching_tag_witness :
  let s := after ["a"; "b"]%string beforeTagChoice in
  catPc s = Some (C_range_services webTwoTags ["web"%string]) ∧
  ∃ s', catRange "web" s = Some s' ∧ tag (heap s' (next s)) = "b"%string.
Proof.
  intros s. split; [by vm_compute|].
  destruct (catRange "web" s) as [s'|] eqn:Hs; [|by vm_compute in Hs].
  exists s'. split; [done|].
  pose proof (C2_last_matching_tag s "web" webTwoTags ["web"%string] s'
                ltac:(by vm_compute) Hs) as H.
  change (lastMatch (tagsToWatch s) (default [] (webTwoTags !! "web"%string)))
    with (Some "b"%string) in H.
  change (watchedServices s !! "web"%string) with (@None rid) in H.
  by destruct H as (_ & _ & ? & _).
Defined.

(** C2 as stated fails: with the tags [a; b], both watched, the first match
    is [a] and the record gets [b]. *)
Lemma C2_counterexample :
  let s := after ["a"; "b"]%string beforeTagChoice in
  catPc s = Some (C_range_services webTwoTags ["web"%string]) ∧
  ∃ s', catRange "web" s = Some s' ∧
        watchedServices s' !! "web"%string = Some 0%nat ∧
        firstMatch (tagsToWatch s) (default [] (webTwoTags !! "web"%string))
        = Some "a"%string ∧
        tag (heap s' 0%nat) = "b"%string.
Proof.
  intros s. split; [by vm_compute|].
  eexists. split; [by vm_compute|]. by vm_compute.
Qed.

(** ** The mutex *)

(** C3, as amended: the cache and the flag [removed] are written by
    [watchServices] alone, under the mutex; [lastIndex] and [Instances] of a
    record are written by a watch loop of that record alone, which does not
    hold the mutex when it writes them; [running] is written by [Run]
    alone, which does not hold the mutex either. *)
Theorem C3_lock_discipline s :
  reached s →
  Forall (λ e,
    match act e with
    | ACacheInsert _ _ | ACacheDelete _ | ASetRemoved _ =>
        who e = TCatalog ∧ underLock e
    | ASetLastIndex r _ | ASetInstances r =>
        watches s (who e) r ∧ ¬ underLock e
    | ASetRunning _ => who e = TRun ∧ ¬ underLock e
    | _ => True
    end) (trace s).
Proof.
  intros [tags Hr]. apply reachable_discipline in Hr.
  eapply Forall_impl; [exact Hr|]. intros e [[Hg Hu] Ha].
  unfold author in Ha. destruct (act e); simpl in *; auto.
Qed.

Lemma lifeOfWeb_removed :
  trace (after ["prod"%string] lifeOfWeb) !! 13%nat
  = Some (mkEntry TCatalog (Some TCatalog) (ASetRemoved 0)).
Proof. vm_compute. reflexivity. Qed.

Lemma lifeOfWeb_lastIndex :
  trace (after ["prod"%string] lifeOfWeb) !! 6%nat
  = Some (mkEntry (TWatch 0) None (ASetLastIndex 0 5)).
Proof. vm_compute. reflexivity. Qed.

Lemma lifeOfWeb_running :
  trace (after ["prod"%string] lifeOfWeb) !! 4%nat
  = Some (mkEntry TRun None (ASetRunning 0)).
Proof. vm_compute. reflexivity. Qed.

(** C3 after the whole life of "web": the write to [removed]. *)
Lemma C3_lock_discipline_witness :
  reached (after ["prod"%string] lifeOfWeb) ∧
  who (mkEntry TCatalog (Some TCatalog) (ASetRemoved 0)) = TCatalog ∧
  underLock (mkEntry TCatalog (Some TCatalog) (ASetRemoved 0)).
Proof.
  split; [apply after_reached|].
  pose proof (C3_lock_discipline _ (after_reached ["prod"%string] lifeOfWeb)) as H.
  rewrite Forall_lookup in H.
  exact (H 13%nat _ lifeOfWeb_removed).
Defined.

(** C3 as stated fails: the watch loop of "web" writes [lastIndex] while
    nobody holds the mutex, and so does [Run] when it sets [running]. *)
Lemma C3_counterexample :
  reached (after ["prod"%string] lifeOfWeb) ∧
  ¬ writesUnderLock (trace (after ["prod"%string] lifeOfWeb)) ∧
  trace (after ["prod"%string] lifeOfWeb) !! 6%nat
  = Some (mkEntry (TWatch 0) None (ASetLastIndex 0 5)) ∧
  trace (after ["prod"%string] lifeOfWeb) !! 4%nat
  = Some (mkEntry TRun None (ASetRunning 0)).
Proof.
  split; [apply after_reached|].
  split; [|split; [apply lifeOfWeb_lastIndex|apply lifeOfWeb_running]].
  intros H. unfold writesUnderLock in H. rewrite Forall_lookup in H.
  specialize (H 6%nat _ lifeOfWeb_lastIndex I). discriminate H.
Qed.

(** ** One watch loop per record *)

(** C5, as amended: no record ever has two watch loops; [Run] starts a
    loop for a record at most once and sets its [running] at most once,
    after which the flag stays set; the flag is tested and set by [Run]
    alone, which does not hold the mutex when it sets it. *)
Theorem C5_one_loop_per_record s :
  reached s →
  (∀ i j r pc pc',
     watchers s !! i = Some (r, pc) → watchers s !! j = Some (r, pc') → i = j) ∧
  (∀ r, at_most_once (launches r) (trace s)) ∧
  (∀ r, at_most_once (setsRunning r) (trace s)) ∧
  (∀ r, Exists (setsRunning r) (trace s) → running (heap s r) = true) ∧
  Forall (λ e, (∃ r, act e = ASetRunning r) → who e = TRun ∧ ¬ underLock e)
         (trace s).
Proof.
  intros [tags Hr]. split_and!.
  - by destruct (reachable_launch_inv _ _ Hr).
  - by destruct (reachable_history_inv _ _ Hr).
  - by destruct (reachable_history_inv _ _ Hr).
  - by destruct (reachable_history_inv _ _ Hr).
  - apply reachable_discipline in Hr.
    eapply Forall_impl; [exact Hr|]. intros e [[Hg Hu] Ha] [r He].
    unfold author in Ha. rewrite He in *. simpl in *. auto.
Qed.

(** C5 after the whole life of "web": the one write to [running]. *)
Lemma C5_one_loop_per_record_witness :
  reached (after ["prod"%string] lifeOfWeb) ∧
  who (mkEntry TRun None (ASetRunning 0)) = TRun ∧
  ¬ underLock (mkEntry TRun None (ASetRunning 0)).
Proof.
  split; [apply after_reached|].
  destruct (C5_one_loop_per_record _ (after_reached ["prod"%string] lifeOfWeb))
    as (_ & _ & _ & _ & H).
  rewrite Forall_lookup in H.
  exact (H 4%nat _ lifeOfWeb_running (ex_intro _ 0%nat eq_refl)).
Defined.

(** C5 as stated fails in its last part: when [Run] sets [running] for
    "web" nobody holds the mutex. *)
Lemma C5_counterexample :
  reached (after ["prod"%string] lifeOfWeb) ∧
  trace (after ["prod"%string] lifeOfWeb) !! 4%nat
  = Some (mkEntry TRun None (ASetRunning 0)) ∧
  ¬ runningUnderLock (trace (after ["prod"%string] lifeOfWeb)).
Proof.
  split; [apply after_reached|]. split; [apply lifeOfWeb_running|].
  intros H. unfold runningUnderLock in H. rewrite Forall_lookup in H.
  specialize (H 4%nat _ lifeOfWeb_running (ex_intro _ 0%nat eq_refl)).
  discriminate H.
Qed.

(** ** Cancellation and the order of updates *)

Lemma lifeOfWeb_check :
  trace (after ["prod"%string] lifeOfWeb) !! 9%nat
  = Some (mkEntry (TWatch 0) (Some (TWatch 0)) (ACheckDone 0 false)).
Proof. vm_compute. reflexivity. Qed.

Lemma lifeOfWeb_close :
  trace (after ["prod"%string] lifeOfWeb) !! 16%nat
  = Some (mkEntry TRun None (ACloseDone InRun 0)).
Proof. vm_compute. reflexivity. Qed.

Lemma lifeOfWeb_deleted :
  trace (after ["prod"%string] lifeOfWeb) !! 17%nat
  = Some (mkEntry TRun None
            (AEmit 0 (registry.mkUpdate "web" registry.DELETED ∅ "prod"))).
Proof. vm_compute. reflexivity. Qed.

(** C1 as stated fails: [Run] closes the [done] of "web" and then sends
    DELETED for it. *)
Lemma C1_counterexample :
  reached (after ["prod"%string] lifeOfWeb) ∧
  trace (after ["prod"%string] lifeOfWeb) !! 16%nat
  = Some (mkEntry TRun None (ACloseDone InRun 0)) ∧
  trace (after ["prod"%string] lifeOfWeb) !! 17%nat
  = Some (mkEntry TRun None
            (AEmit 0 (registry.mkUpdate "web" registry.DELETED ∅ "prod"))) ∧
  ¬ silentAfterCancel (trace (after ["prod"%string] lifeOfWeb)).
Proof.
  split; [apply after_reached|].
  split; [apply lifeOfWeb_close|]. split; [apply lifeOfWeb_deleted|].
  intros H.
  apply (H InRun 0%nat registry.DELETED 16%nat 17%nat _ _
           lifeOfWeb_close lifeOfWeb_deleted); simpl; auto.
Qed.

Lemma lateChanged_updates :
  updatesOf "web" (trace (after ["prod"%string] lateChanged))
  = [registry.NEW; registry.DELETED; registry.CHANGED].
Proof. vm_compute. reflexivity. Qed.

Lemma earlyChanged_updates :
  updatesOf "web" (trace (after ["prod"%string] earlyChanged))
  = [registry.CHANGED; registry.NEW].
Proof. vm_compute. reflexivity. Qed.

Lemma rediscovered_updates :
  updatesOf "web" (trace (after ["prod"%string] rediscovered))
  = [registry.NEW; registry.DELETED; registry.NEW; registry.CHANGED].
Proof. vm_compute. reflexivity. Qed.

(** C4 as stated fails, in three runs: a watch loop that has passed its
    check sends CHANGED after [Run] has sent DELETED; a watch loop sends
    CHANGED before [Run], which started it first, has sent NEW; and a
    service that comes back gets a second NEW before its first CHANGED. *)
Lemma C4_counterexample :
  (reached (after ["prod"%string] lateChanged) ∧
   updatesOf "web" (trace (after ["prod"%string] lateChanged))
   = [registry.NEW; registry.DELETED; registry.CHANGED] ∧
   ¬ ordered (updatesOf "web" (trace (after ["prod"%string] lateChanged)))) ∧
  (reached (after ["prod"%string] earlyChanged) ∧
   updatesOf "web" (trace (after ["prod"%string] earlyChanged))
   = [registry.CHANGED; registry.NEW] ∧
   ¬ ordered (updatesOf "web" (trace (after ["prod"%string] earlyChanged)))) ∧
  (reached (after ["prod"%string] rediscovered) ∧
   updatesOf "web" (trace (after ["prod"%string] rediscovered))
   = [registry.NEW; registry.DELETED; registry.NEW; registry.CHANGED] ∧
   ¬ ordered (updatesOf "web" (trace (after ["prod"%string] rediscovered)))).
Proof.
  split_and!; try apply after_reached.
  - apply lateChanged_updates.
  - rewrite lateChanged_updates. intros [_ H].
    apply (H [registry.NEW] [registry.CHANGED] eq_refl). by left.
  - apply earlyChanged_updates.
  - rewrite earlyChanged_updates. intros [H _].
    by specialize (H [] [registry.NEW] eq_refl).
  - apply rediscovered_updates.
  - rewrite rediscovered_updates. intros [H _].
    by specialize (H [registry.NEW; registry.DELETED; registry.NEW] [] eq_refl).
Qed.

(** ** Failed queries *)

Lemma set_trace_set_trace tr1 tr2 s :
  set_trace tr2 (set_trace tr1 s) = set_trace tr2 s.
Proof. done. Qed.

Lemma watch_error_round s i r :
  panicked s = false → watchers s !! i = Some (r, W_query) →
  exec [LWatchReply i Err; LWatch i] s
  = Some (set_trace (trace s ++ errorRound (TWatch i) s) s).
Proof.
  intros Hp Hw.
  assert (step (LWatchReply i Err) s
          = Some (goto i r W_sleep (record (TWatch i) ALogError s))) as H1.
  { unfold step, watchReply. by rewrite Hp, Hw. }
  assert (step (LWatch i) (goto i r W_sleep (record (TWatch i) ALogError s))
          = Some (set_trace (trace s ++ errorRound (TWatch i) s) s)) as H2.
  { unfold step, watchStep. simpl. rewrite Hp.
    rewrite list_lookup_insert_eq by (by eapply lookup_lt_Some). simpl.
    f_equal. destruct s; simpl in *.
    unfold goto, record, set_trace, set_watchers; simpl. f_equal.
    - rewrite list_insert_insert_eq. by apply list_insert_id.
    - by rewrite <-app_assoc. }
  unfold exec. rewrite H1. simpl. by rewrite H2.
Qed.

Lemma cat_error_round s :
  panicked s = false → catPc s = Some C_query →
  exec [LCatReply Err; LCat] s
  = Some (set_trace (trace s ++ errorRound TCatalog s) s).
Proof.
  intros Hp Hc.
  assert (step (LCatReply Err) s
          = Some (set_catPc (Some C_sleep) (record TCatalog ALogError s))) as H1.
  { unfold step, catReply. by rewrite Hp, Hc. }
  assert (step LCat (set_catPc (Some C_sleep) (record TCatalog ALogError s))
          = Some (set_trace (trace s ++ errorRound TCatalog s) s)) as H2.
  { unfold step, catStep. simpl. rewrite Hp.
    f_equal. destruct s; simpl in *.
    unfold record, set_trace, set_catPc; simpl. subst. f_equal.
    by rewrite <-app_assoc. }
  unfold exec. rewrite H1. simpl. by rewrite H2.
Qed.

Lemma exec_app ls1 ls2 s :
  exec (ls1 ++ ls2) s = exec ls1 s ≫= exec ls2.
Proof.
  revert s. induction ls1 as [|l ls1 IH]; intros s; simpl; [done|].
  destruct (step l s); simpl; [apply IH|done].
Qed.

(** C8: a failed query, in either loop, is logged and followed by a sleep
    of [consulRetryInterval], after which the loop queries again; nothing
    else changes (the last index, the records, the cache and the channels
    are as before, and nothing is sent upstream), and this is so however
    many queries fail in a row, always with the same interval. *)
Theorem C8_errors_retried s n :
  panicked s = false →
  (∀ i r,
     watchers s !! i = Some (r, W_query) →
     exec (concat (replicate n [LWatchReply i Err; LWatch i])) s
     = Some (set_trace
               (trace s ++ concat (replicate n (errorRound (TWatch i) s))) s)) ∧
  (catPc s = Some C_query →
   exec (concat (replicate n [LCatReply Err; LCat])) s
   = Some (set_trace
             (trace s ++ concat (replicate n (errorRound TCatalog s))) s)).
Proof.
  revert s. induction n as [|n IH]; intros s Hp.
  - simpl. rewrite app_nil_r. by destruct s.
  - split.
    + intros i r Hw.
      replace (concat (replicate (S n) [LWatchReply i Err; LWatch i]))
        with ([LWatchReply i Err; LWatch i]
              ++ concat (replicate n [LWatchReply i Err; LWatch i])) by done.
      rewrite exec_app.
      rewrite (watch_error_round s i r Hp Hw). simpl.
      destruct (IH (set_trace (trace s ++ errorRound (TWatch i) s) s) Hp)
        as [IH1 _].
      rewrite (IH1 i r Hw). simpl. by rewrite <-app_assoc.
    + intros Hc.
      replace (concat (replicate (S n) [LCatReply Err; LCat]))
        with ([LCatReply Err; LCat]
              ++ concat (replicate n [LCatReply Err; LCat])) by done.
      rewrite exec_app.
      rewrite (cat_error_round s Hp Hc). simpl.
      destruct (IH (set_trace (trace s ++ errorRound TCatalog s) s) Hp)
        as [_ IH2].
      rewrite (IH2 Hc). simpl. by rewrite <-app_assoc.
Qed.

Lemma watching_state :
  panicked (after ["prod"%string] watching) = false ∧
  watchers (after ["prod"%string] watching) !! 0%nat = Some (0%nat, W_query) ∧
  catPc (after ["prod"%string] watching) = Some C_query.
Proof. vm_compute. done. Qed.

(** C8 for three failed queries in a row of the watch loop of "web". *)
Lemma C8_errors_retried_witness :
  panicked (after ["prod"%string] watching) = false ∧
  exec (concat (replicate 3 [LWatchReply 0 Err; LWatch 0]))
       (after ["prod"%string] watching)
  = Some (set_trace
            (trace (after ["prod"%string] watching)
             ++ concat (replicate 3
                  (errorRound (TWatch 0) (after ["prod"%string] watching))))
            (after ["prod"%string] watching)).
Proof.
  destruct watching_state as (Hp & Hw & _). split; [exact Hp|].
  destruct (C8_errors_retried (after ["prod"%string] watching) 3 Hp) as [H _].
  exact (H 0%nat 0%nat Hw).
Defined.

(** ** Replies with an unchanged index *)

Lemma heap_store_lastIndex (h : rid → consulService) (a r : rid) v :
  lastIndex (<[a := with_lastIndex v (h a)]> h r)
  = if decide (a = r) then v else lastIndex (h r).
Proof.
  case_decide; subst.
  - by rewrite fn_lookup_insert.
  - by rewrite fn_lookup_insert_ne.
Qed.

Ltac changed_simpl :=
  unfold changedBy; simpl; rewrite ?filter_app, ?length_app; simpl;
  rewrite ?filter_cons, ?filter_nil;
  repeat (let Hsent := fresh "Hsent" in
          case_decide as Hsent;
          [ try (exfalso; destruct Hsent as [Hsent _]; simpl in Hsent;
                 congruence)
          | try (exfalso; apply Hsent; split; [done|simpl; eauto]) ]);
  simpl; try lia.

Lemma quiet_step s l s' i r pc index :
  fresh_inv s → launch_inv s → step l s = Some s' → ¬ repliesTo i l →
  watchers s !! i = Some (r, pc) → settled index r pc s →
  ∃ pc', watchers s' !! i = Some (r, pc') ∧ settled index r pc' s' ∧
         (changedBy i (trace s') + budget pc'
          ≤ changedBy i (trace s) + budget pc)%nat.
Proof.
  intros HF HL Hs Hq Hw Hset. step_cases Hs.
  all: destruct HF as [_ _ Fw _ _ _], HL as [_ _ _ Lu].
  all: pose proof (Forall_lookup_1 _ _ _ _ Fw Hw) as Hlt; simpl in Hlt.
  all: simpl.
  (* steps of [Run] and of [watchServices], which leave the loop alone *)
  all: try (exists pc; split; [first [done|by apply lookup_app_l_Some]|];
            split; [|by changed_simpl];
            unfold settled in *; destruct pc; simpl; try done;
            by rewrite ?(heap_frame lastIndex), ?heap_alloc by done).
  (* steps of a watch loop: this one, or another one, of another record *)
  all: match goal with
       | H : watchers _ !! ?j = Some (?n, _) |- context [<[?j := _]> _] =>
           destruct (decide (j = i)) as [->|Hne];
           [ first [ by exfalso; apply Hq; exact eq_refl
                   | simplify_eq; eexists;
                     split; [apply list_lookup_insert_eq; by eapply lookup_lt_Some|] ]
           | assert (n ≠ r) by (intros ->; apply Hne; eapply Lu; eauto);
             exists pc; split; [by rewrite list_lookup_insert_ne|] ]
       | _ => idtac
       end.
  all: try (split; [|by changed_simpl];
            unfold settled in *; try destruct pc; simpl in *; try done;
            rewrite ?(heap_frame lastIndex), ?heap_store_lastIndex by done;
            rewrite ?fn_lookup_insert, ?fn_lookup_insert_ne by done; simpl;
            rewrite ?decide_True, ?decide_False by done; done).
Qed.

Lemma quiet_exec tags ls : ∀ s s' i r pc index,
  reachable tags s → exec ls s = Some s' → Forall (λ l, ¬ repliesTo i l) ls →
  watchers s !! i = Some (r, pc) → settled index r pc s →
  ∃ pc', watchers s' !! i = Some (r, pc') ∧ settled index r pc' s' ∧
         (changedBy i (trace s') + budget pc'
          ≤ changedBy i (trace s) + budget pc)%nat.
Proof.
  induction ls as [|l ls IH]; intros s s' i r pc index Hr He Hq Hw Hset;
    simpl in He.
  - simplify_eq. by exists pc.
  - destruct (step l s) as [s1|] eqn:Hs; [simpl in He|done].
    apply Forall_cons in Hq as [Hl Hq].
    destruct (quiet_step s l s1 i r pc index) as (pc1 & Hw1 & Hset1 & Hn1);
      [by eapply reachable_fresh_inv|by eapply reachable_launch_inv|done..|].
    destruct (IH s1 s' i r pc1 index) as (pc' & Hw' & Hset' & Hn');
      [by eapply reachable_step|done..|].
    exists pc'. split_and!; [done..|lia].
Qed.

(** C6: a reply whose index is the one the loop has seen last leaves the
    whole state as it is, for the loop of a record and for the loop of the
    catalog: nothing is sent, no field of a record is written, [lastIndex]
    stays. And when a watch loop gets two replies in a row with the same
    index, whatever the other goroutines do in between, the second reply
    changes nothing and the loop has sent at most one CHANGED since the
    first. *)
Theorem C6_same_index_no_change s :
  panicked s = false →
  (∀ i r nodes,
     watchers s !! i = Some (r, W_query) →
     step (LWatchReply i (Ok nodes (lastIndex (heap s r)))) s = Some s) ∧
  (∀ services,
     catPc s = Some C_query →
     step (LCatReply (Ok services (catLastIndex s))) s = Some s) ∧
  (∀ tags i nodes1 nodes2 index ls s2,
     reachable tags s →
     Forall (λ l, ¬ repliesTo i l) ls →
     exec (LWatchReply i (Ok nodes1 index) :: ls
           ++ [LWatchReply i (Ok nodes2 index)]) s = Some s2 →
     exec (LWatchReply i (Ok nodes1 index) :: ls) s = Some s2 ∧
     (changedBy i (trace s2) ≤ changedBy i (trace s) + 1)%nat).
Proof.
  intros Hp. split_and!.
  - intros i r nodes Hw. unfold step, watchReply. rewrite Hp, Hw.
    by rewrite decide_True.
  - intros services Hc. unfold step, catReply. rewrite Hp, Hc.
    by rewrite decide_True.
  - intros tags i nodes1 nodes2 index ls s2 Hr Hq He.
    change (?l :: ?ls ++ ?k) with ((l :: ls) ++ k) in He.
    rewrite exec_app in He.
    destruct (exec (_ :: ls) s) as [s1|] eqn:He1; [simpl in He|done].
    simpl in He1.
    destruct (step (LWatchReply i (Ok nodes1 index)) s) as [s0|] eqn:Hs0;
      [simpl in He1|done].
    assert (∃ r pc0, watchers s0 !! i = Some (r, pc0) ∧ settled index r pc0 s0
                     ∧ trace s0 = trace s ∧ (budget pc0 ≤ 1)%nat)
      as (r & pc0 & Hw0 & Hset0 & Ht0 & Hb0).
    { unfold step, watchReply in Hs0. rewrite Hp in Hs0.
      destruct (watchers s !! i) as [[r [| | | | | | | |]]|] eqn:Hw; try done.
      case_decide as Hi; simplify_eq.
      - exists r, W_query. by split_and!; simpl; try lia.
      - exists r, (W_store nodes1 index). split_and!; simpl; try done.
        apply list_lookup_insert_eq. by eapply lookup_lt_Some. }
    destruct (quiet_exec tags ls s0 s1 i r pc0 index)
      as (pc1 & Hw1 & Hset1 & Hn1); [by eapply reachable_step|done..|].
    destruct (step (LWatchReply i (Ok nodes2 index)) s1) as [s2'|] eqn:Hs2;
      [simpl in He; simplify_eq|done].
    unfold step, watchReply in Hs2.
    destruct (panicked s1); [done|]. rewrite Hw1 in Hs2.
    destruct pc1; try done. simpl in Hset1.
    rewrite decide_True in Hs2 by done. simplify_eq.
    split; [done|]. rewrite Ht0 in Hn1. lia.
Qed.

Lemma watching_same_index :
  exec (LWatchReply 0 (Ok [node1] 5)
        :: (LWatch 0 :: lockAndCheck 0 ++ sendAndUnlock 0)
        ++ [LWatchReply 0 (Ok [] 5)])
       (after ["prod"%string] watching)
  = Some (after ["prod"%string] (watching ++ refresh 0 5)).
Proof. vm_compute. reflexivity. Qed.

(** C6 for the watch loop of "web": a reply with index 5, the CHANGED it
    causes, and a second reply with index 5. *)
Lemma C6_same_index_no_change_witness :
  panicked (after ["prod"%string] watching) = false ∧
  exec (LWatchReply 0 (Ok [node1] 5)
        :: LWatch 0 :: lockAndCheck 0 ++ sendAndUnlock 0)
       (after ["prod"%string] watching)
  = Some (after ["prod"%string] (watching ++ refresh 0 5)) ∧
  (changedBy 0 (trace (after ["prod"%string] (watching ++ refresh 0 5)))
   ≤ changedBy 0 (trace (after ["prod"%string] watching)) + 1)%nat.
Proof.
  destruct watching_state as (Hp & _ & _). split; [exact Hp|].
  destruct (C6_same_index_no_change (after ["prod"%string] watching) Hp)
    as (_ & _ & H).
  apply (H ["prod"%string] 0%nat [node1] [] 5
           (LWatch 0 :: lockAndCheck 0 ++ sendAndUnlock 0)).
  - apply after_reachable.
  - repeat constructor; simpl; tauto.
  - exact watching_same_index.
Defined.

(** ** Stopping the registry *)

Lemma stopBeforeRemoval_state :
  runPc (after ["prod"%string] stopBeforeRemoval) = R_returned ∧
  upstreamClosed (after ["prod"%string] stopBeforeRemoval) = true ∧
  panicked (after ["prod"%string] stopBeforeRemoval) = false ∧
  watchedServices (after ["prod"%string] stopBeforeRemoval) !! "web"%string = None ∧
  update (after ["prod"%string] stopBeforeRemoval) = [0%nat] ∧
  watchers (after ["prod"%string] stopBeforeRemoval) !! 0%nat
  = Some (0%nat, W_query) ∧
  done (heap (after ["prod"%string] stopBeforeRemoval) 0%nat) = false.
Proof. vm_compute. repeat split. Qed.

Lemma stopBeforeRemoval_panic :
  panicked (after ["prod"%string]
              (stopBeforeRemoval ++ fetch 0 5 ++ lockAndCheck 0 ++ [LWatch 0]))
  = true.
Proof. vm_compute. reflexivity. Qed.

(** C7, where the code leaves its purpose: "web" has left the cache and its
    removal is still queued in [update] when the caller closes [done].
    [Run] returns, [stop] finds the cache empty and closes no [done],
    [upstream] is closed; the watch loop of "web" is still querying, its
    [done] open. When its next reply comes, it passes its check and sends
    on the closed channel, which panics. *)
Theorem C7_leaked_loop :
  reached (after ["prod"%string] stopBeforeRemoval) ∧
  runPc (after ["prod"%string] stopBeforeRemoval) = R_returned ∧
  upstreamClosed (after ["prod"%string] stopBeforeRemoval) = true ∧
  watchedServices (after ["prod"%string] stopBeforeRemoval) !! "web"%string = None ∧
  watchers (after ["prod"%string] stopBeforeRemoval) !! 0%nat
  = Some (0%nat, W_query) ∧
  done (heap (after ["prod"%string] stopBeforeRemoval) 0%nat) = false ∧
  ¬ noLoopLeft (after ["prod"%string] stopBeforeRemoval) ∧
  panicked (after ["prod"%string]
              (stopBeforeRemoval ++ fetch 0 5 ++ lockAndCheck 0 ++ [LWatch 0]))
  = true.
Proof.
  destruct stopBeforeRemoval_state as (Hr & Hu & _ & Hc & _ & Hw & Hd).
  split; [apply after_reached|].
  split; [exact Hr|]. split; [exact Hu|]. split; [exact Hc|].
  split; [exact Hw|]. split; [exact Hd|].
  split; [|exact stopBeforeRemoval_panic].
  intros Hn. destruct (Hn Hu 0%nat 0%nat W_query Hw) as [Hq|Hd'].
  - discriminate Hq.
  - rewrite Hd in Hd'. discriminate Hd'.
Qed.

(** * Further properties *)

(** ** Instance keys *)

Lemma uint_no_colon d :
  Forall (λ c, c ≠ colon) (String.list_ascii_of_string (NilEmpty.string_of_uint d)).
Proof. induction d; simpl; constructor; done. Qed.

Lemma itoa_no_colon n :
  Forall (λ c, c ≠ colon) (String.list_ascii_of_string (itoa n)).
Proof.
  unfold itoa. destruct (Z.to_int n) as [d|d]; simpl.
  - destruct d; try apply uint_no_colon. simpl. repeat constructor; done.
  - constructor; [done|].
    destruct d; try apply uint_no_colon. simpl. repeat constructor; done.
Qed.

Lemma itoa_inj n1 n2 : itoa n1 = itoa n2 → n1 = n2.
Proof.
  intros H. pose proof (itoa_decimal n1) as H1. rewrite H, itoa_decimal in H1.
  congruence.
Qed.

Lemma colon_split a1 a2 d1 d2 :
  Forall (λ c, c ≠ colon) (String.list_ascii_of_string d1) →
  Forall (λ c, c ≠ colon) (String.list_ascii_of_string d2) →
  a1 +:+ ":" +:+ d1 = a2 +:+ ":" +:+ d2 → a1 = a2 ∧ d1 = d2.
Proof.
  intros H1 H2. revert a2.
  assert (∀ a d d', Forall (λ c, c ≠ colon) (String.list_ascii_of_string d') →
                    d' ≠ a +:+ ":" +:+ d) as Hno.
  { intros a d d' Hd' ->. induction a as [|c a IH]; simpl in Hd'.
    - by inversion Hd'.
    - inversion Hd'; auto. }
  induction a1 as [|c a1 IH]; intros [|c' a2]; simpl; intros Heq.
  - by simplify_eq.
  - simplify_eq. by destruct (Hno a2 d2 _ H1).
  - simplify_eq. by destruct (Hno a1 d1 _ H2).
  - simplify_eq. destruct (IH a2) as [-> ->]; done.
Qed.

Lemma instanceKey_same node1 node2 :
  instanceKey node1 = instanceKey node2 ↔
  consul.ServiceAddress node1 = consul.ServiceAddress node2 ∧
  consul.ServicePort node1 = consul.ServicePort node2.
Proof.
  unfold instanceKey. split.
  - intros [Ha Hd]%colon_split; try apply itoa_no_colon.
    split; [done|by apply itoa_inj].
  - by intros [-> ->].
Qed.

(** X1: two nodes get the same key in the instance map exactly when they
    have the same service address and the same service port: the address
    of one node cannot run into the port of another. *)
Theorem X1_instanceKey_collision node1 node2 :
  instanceKey node1 = instanceKey node2 ↔
  consul.ServiceAddress node1 = consul.ServiceAddress node2 ∧
  consul.ServicePort node1 = consul.ServicePort node2.
Proof. apply instanceKey_same. Qed.

(** ** The instance map as a whole *)

Lemma buildInstances_snoc nodes node :
  buildInstances (nodes ++ [node])
  = <[instanceKey node := instanceOf node]> (buildInstances nodes).
Proof. unfold buildInstances. by rewrite foldl_app. Qed.

Lemma lastWithKey_app k l1 l2 :
  lastWithKey k (l1 ++ l2)
  = match lastWithKey k l2 with
    | Some node => Some node
    | None => lastWithKey k l1
    end.
Proof. unfold lastWithKey. by rewrite filter_app, last_app. Qed.

Lemma lastWithKey_None k nodes :
  lastWithKey k nodes = None ↔ ∀ node, node ∈ nodes → instanceKey node ≠ k.
Proof.
  unfold lastWithKey. rewrite last_None. split.
  - intros H node Hin Hk. by apply (filter_nil_not_elem_of _ _ node H Hk).
  - intros H. apply filter_none. done.
Qed.

(** X2: when the returned nodes have pairwise different (service address,
    service port) pairs, no instance is lost: the map has exactly one entry
    per node, and each node's instance is stored under its key. *)
Theorem X2_distinct_endpoints_kept nodes :
  NoDup (endpoint <$> nodes) →
  size (buildInstances nodes) = length nodes ∧
  ∀ node, node ∈ nodes →
          buildInstances nodes !! instanceKey node = Some (instanceOf node).
Proof.
  induction nodes as [|node nodes IH] using rev_ind; intros Hnd.
  - split; [done|]. by intros node Hin%elem_of_nil.
  - rewrite fmap_app in Hnd. apply NoDup_app in Hnd as (Hnd & Hne & _).
    destruct (IH Hnd) as [Hsize Hall].
    assert (∀ node', node' ∈ nodes → instanceKey node' ≠ instanceKey node)
      as Hfresh.
    { intros node' Hin Hk. apply instanceKey_same in Hk.
      apply (Hne (endpoint node')).
      - apply list_elem_of_fmap. by exists node'.
      - simpl. apply list_elem_of_singleton. unfold endpoint.
        destruct Hk as [-> ->]. done. }
    rewrite buildInstances_snoc. split.
    + rewrite map_size_insert_None, length_app; [simpl; lia|].
      rewrite buildInstances_lookup.
      apply lastWithKey_None in Hfresh. by rewrite Hfresh.
    + intros node' [Hin|Hin%list_elem_of_singleton]%elem_of_app.
      * rewrite lookup_insert_ne; [by apply Hall|].
        intros Hk. by apply (Hfresh node' Hin).
      * subst. by rewrite lookup_insert_eq.
Qed.

(** X2 at two nodes of one host with different ports. *)
Lemma X2_distinct_endpoints_kept_witness :
  NoDup (endpoint <$> [consul.mkNode "a" "10.0.0.1" "10.0.0.5" 80 [];
                       consul.mkNode "a" "10.0.0.1" "10.0.0.5" 81 []]) ∧
  size (buildInstances [consul.mkNode "a" "10.0.0.1" "10.0.0.5" 80 [];
                        consul.mkNode "a" "10.0.0.1" "10.0.0.5" 81 []])
  = 2%nat.
Proof.
  assert (NoDup (endpoint <$> [consul.mkNode "a" "10.0.0.1" "10.0.0.5" 80 [];
                               consul.mkNode "a" "10.0.0.1" "10.0.0.5" 81 []]))
    as Hnd.
  { simpl. apply NoDup_cons. split; [|apply NoDup_singleton].
    intros Hin%list_elem_of_singleton. discriminate Hin. }
  split; [exact Hnd|].
  exact (proj1 (X2_distinct_endpoints_kept _ Hnd)).
Defined.

(** X3: the map of an empty reply is empty, and the map of a reply in two
    parts is the map of the second part completed by the map of the first:
    where both parts have a key, the later part wins. *)
Theorem X3_instances_append :
  buildInstances [] = ∅ ∧
  ∀ nodes1 nodes2,
    buildInstances (nodes1 ++ nodes2)
    = buildInstances nodes2 ∪ buildInstances nodes1.
Proof.
  split; [done|]. intros nodes1 nodes2. apply map_eq. intros k.
  rewrite lookup_union, !buildInstances_lookup, lastWithKey_app.
  by destruct (lastWithKey k nodes2), (lastWithKey k nodes1).
Qed.

(** ** The tag filter *)

(** X4: [watchServices] ignores a service exactly when none of its tags is
    among the tags to watch (so it ignores every service when that list is
    empty, and every service without tags); a service that is not ignored
    gets a tag that is one of its own and one of the watched ones; and the
    order and the repetitions in the list of tags to watch make no
    difference. *)
Theorem X4_tag_filter tagsToWatch v :
  ((matchTags tagsToWatch v).1 = true ↔ ∀ t, t ∈ v → t ∉ tagsToWatch) ∧
  ((matchTags tagsToWatch v).1 = false →
   (matchTags tagsToWatch v).2 ∈ v ∧ (matchTags tagsToWatch v).2 ∈ tagsToWatch) ∧
  (∀ tagsToWatch',
     (∀ t, t ∈ tagsToWatch ↔ t ∈ tagsToWatch') →
     matchTags tagsToWatch' v = matchTags tagsToWatch v).
Proof.
  rewrite matchTags_spec. unfold lastMatch. split_and!.
  - destruct (last _) as [t|] eqn:Hl; simpl.
    + split; [done|]. intros Hno. apply last_Some_elem_of in Hl.
      apply list_elem_of_filter in Hl as [Hw Hv]. by destruct (Hno t Hv).
    + split; [|done]. intros _ t Hv Hw. apply last_None in Hl.
      by apply (filter_nil_not_elem_of _ _ t Hl Hw).
  - destruct (last _) as [t|] eqn:Hl; simpl; [|done]. intros _.
    apply last_Some_elem_of in Hl. apply list_elem_of_filter in Hl. tauto.
  - intros tagsToWatch' Hsame. rewrite matchTags_spec. unfold lastMatch.
    by rewrite (list_filter_iff (λ t, t ∈ tagsToWatch') (λ t, t ∈ tagsToWatch)).
Qed.

(** X4 at a list of tags to watch and a permutation of it with a
    repetition. *)
Lemma X4_tag_filter_witness :
  matchTags ["dev"; "prod"; "dev"]%string ["prod"; "dev"; "eu"]%string
  = matchTags ["prod"; "dev"]%string ["prod"; "dev"; "eu"]%string ∧
  (matchTags ["prod"; "dev"]%string ["prod"; "dev"; "eu"]%string).2 = "dev"%string.
Proof.
  split; [|reflexivity].
  destruct (X4_tag_filter ["prod"; "dev"]%string ["prod"; "dev"; "eu"]%string)
    as (_ & _ & H).
  apply H. intros t. rewrite !elem_of_cons, !elem_of_nil. tauto.
Defined.

(** ** Names and tags *)

Lemma matchTags_watched tagsToWatch v t :
  matchTags tagsToWatch v = (false, t) → t ∈ tagsToWatch ∧ t ∈ v.
Proof.
  rewrite matchTags_spec. unfold lastMatch.
  destruct (last _) as [t'|] eqn:Hl; [|done]. intros [= <-].
  apply last_Some_elem_of in Hl. by apply list_elem_of_filter in Hl.
Qed.

(** A step leaves the name and the tag of every allocated record alone,
    and allocates at most one record. *)
Lemma records_stable s l s' r :
  step l s = Some s' → (r < next s)%nat →
  Name (heap s' r) = Name (heap s r) ∧ tag (heap s' r) = tag (heap s r) ∧
  (r < next s')%nat.
Proof.
  intros Hs Hr. step_cases Hs; simpl.
  all: rewrite ?(heap_frame Name), ?(heap_frame tag) by done.
  all: rewrite ?heap_alloc by done.
  all: split_and!; try done; lia.
Qed.

Lemma wellFormed_step s l s' e :
  step l s = Some s' → allocated s (actRid (act e)) →
  wellFormed s e → wellFormed s' e.
Proof.
  intros Hs Ha Hw r u He. destruct (Hw r u He) as (HN & HT & HI).
  destruct (records_stable s l s' r Hs) as (-> & -> & _); [|done].
  apply Ha. by rewrite He.
Qed.

Lemma cache_inv_init tags : cache_inv tags (init tags).
Proof. split; simpl; try done. intros r. lia. Qed.

Lemma cache_inv_step tags s l s' :
  fresh_inv s → cache_inv tags s → step l s = Some s' → cache_inv tags s'.
Proof.
  intros HF [Ct Cn Cg Cs] Hs.
  pose proof (λ r, records_stable s l s' r Hs) as Hst.
  assert (Forall (wellFormed s') (trace s)) as Hold.
  { destruct HF as [_ _ _ _ _ Ft]. rewrite Forall_forall in Cs, Ft.
    apply Forall_forall. intros e He.
    eapply wellFormed_step; [done|by apply Ft|by apply Cs]. }
  assert (∀ r, (r < next s)%nat → tag (heap s' r) ∈ tags) as Holdtag.
  { intros r Hr. destruct (Hst r Hr) as (_ & -> & _). by apply Cg. }
  assert (∀ k r, watchedServices s !! k = Some r → Name (heap s' r) = k) as Holdname.
  { intros k r Hk. destruct HF as [Fc _ _ _ _ _].
    destruct (Hst r (Fc k r Hk)) as (-> & _ & _). by apply Cn. }
  clear Hst. destruct HF as [Fc _ Fw Fr _ _].
  revert Hold Holdtag Holdname. step_cases Hs.
  all: simpl; intros Hold Holdtag Holdname.
  all: split; simpl in *; try assumption; try done.
  all: try (rewrite Forall_app; split; [assumption|]; apply Forall_singleton;
            intros r' u' [= <- <-]; simpl;
            rewrite ?(heap_frame Name), ?(heap_frame tag) by done; done).
  - intros k r Hk%lookup_delete_Some. apply Cn. tauto.
  - intros k0 r Hk. destruct (decide (k = k0)) as [->|Hne].
    + rewrite lookup_insert_eq in Hk. simplify_eq. by rewrite fn_lookup_insert.
    + rewrite lookup_insert_ne in Hk by done.
      rewrite heap_alloc by eauto. by apply Cn.
  - intros r Hr. destruct (decide (r = next s)) as [->|Hne].
    + rewrite fn_lookup_insert. simpl.
      match goal with H : matchTags _ _ = _ |- _ =>
        by destruct (matchTags_watched _ _ _ H) as [? _] end.
    + rewrite fn_lookup_insert_ne by done. apply Cg. lia.
  - rewrite !Forall_app. split_and!; try done.
    all: apply Forall_singleton; by intros r' u' [=].
Qed.

Lemma reachable_cache_inv tags s : reachable tags s → cache_inv tags s.
Proof.
  apply reachable_inv; [apply cache_inv_init|].
  intros ? ? ? ?%reachable_fresh_inv. by apply cache_inv_step.
Qed.

(** X5: every record in the cache is the record of the name it is cached
    under and carries one of the tags to watch; and every update sent
    upstream carries the name and the tag of its record, a tag that is one
    of the tags to watch, and instances only if it is a CHANGED. *)
Theorem X5_updates_well_formed tags s :
  reachable tags s →
  (∀ k r, watchedServices s !! k = Some r →
          Name (heap s r) = k ∧ tag (heap s r) ∈ tags) ∧
  Forall (λ e, ∀ r u,
            act e = AEmit r u →
            registry.ServiceName u = Name (heap s r) ∧
            registry.Tag u = tag (heap s r) ∧
            registry.Tag u ∈ tags ∧
            (registry.UpdateType_ u ≠ registry.CHANGED →
             registry.ServiceInstances u = ∅))
         (trace s).
Proof.
  intros Hr. destruct (reachable_cache_inv _ _ Hr) as [Ct Cn Cg Cs].
  destruct (reachable_fresh_inv _ _ Hr) as [Fc _ _ _ _ Ft]. split.
  - intros k r Hk. split; [by apply Cn|]. apply Cg. by eapply Fc.
  - rewrite Forall_forall in Cs, Ft. apply Forall_forall. intros e He r u Ha.
    destruct (Cs e He r u Ha) as (HN & HT & HI). split_and!; try done.
    rewrite HT. apply Cg. apply (Ft e He). by rewrite Ha.
Qed.

(** X5 after the whole life of "web", at the DELETED that ends it. *)
Lemma X5_updates_well_formed_witness :
  reachable ["prod"%string] (after ["prod"%string] lifeOfWeb) ∧
  registry.Tag (registry.mkUpdate "web" registry.DELETED ∅ "prod")
  ∈ ["prod"%string].
Proof.
  split; [apply after_reachable|].
  destruct (X5_updates_well_formed _ _ (after_reachable ["prod"%string] lifeOfWeb))
    as [_ H].
  rewrite Forall_lookup in H.
  by destruct (H 17%nat _ lifeOfWeb_deleted 0%nat _ eq_refl) as (_ & _ & ? & _).
Defined.

(** X6: with no tag to watch the registry only polls the catalog: no
    record is ever made, nothing is cached or queued, no watch loop is
    started and nothing is sent upstream. *)
Theorem X6_no_tag_nothing_watched s :
  reachable [] s →
  next s = 0%nat ∧ watchedServices s = ∅ ∧ update s = [] ∧ watchers s = [] ∧
  Forall (λ e, ∀ r u, act e ≠ AEmit r u) (trace s).
Proof.
  intros Hr. destruct (reachable_cache_inv _ _ Hr) as [_ _ Cg _].
  destruct (reachable_fresh_inv _ _ Hr) as [Fc Fu Fw _ _ Ft].
  assert (next s = 0%nat) as Hn.
  { destruct (next s) eqn:Hn; [done|].
    exfalso. apply (not_elem_of_nil (tag (heap s 0%nat))). apply Cg. lia. }
  rewrite Hn in *. split_and!; try done.
  - apply map_empty. intros k. destruct (watchedServices s !! k) eqn:Hk; [|done].
    apply Fc in Hk. lia.
  - destruct (update s); [done|]. apply Forall_cons in Fu as [? _]. lia.
  - destruct (watchers s); [done|]. apply Forall_cons in Fw as [? _]. lia.
  - eapply Forall_impl; [exact Ft|]. intros e Ha r u He.
    specialize (Ha r). rewrite He in Ha. specialize (Ha eq_refl). lia.
Qed.

Lemma ignoredRound_state :
  catLastIndex (after [] ignoredRound) = 1 ∧
  catPc (after [] ignoredRound) = Some C_query.
Proof. vm_compute. done. Qed.

(** X6 after a round of [watchServices] over a catalog that lists "web". *)
Lemma X6_no_tag_nothing_watched_witness :
  reachable [] (after [] ignoredRound) ∧
  catLastIndex (after [] ignoredRound) = 1 ∧
  watchedServices (after [] ignoredRound) = ∅.
Proof.
  split; [apply after_reachable|]. split; [apply ignoredRound_state|].
  by destruct (X6_no_tag_nothing_watched _ (after_reachable [] ignoredRound))
    as (_ & ? & _).
Defined.

(** ** Leaving [Run] *)

Lemma leave_inv_init tags : leave_inv (init tags).
Proof. split; simpl; try done. Qed.

Lemma leave_inv_step s l s' :
  mutex_inv s → leave_inv s → step l s = Some s' → leave_inv s'.
Proof.
  intros [_ HM] [Lf Lu Lz] Hs.
  pose proof (HM TCatalog) as HC. simpl in HC.
  step_cases Hs.
  all: split; simpl.
  all: repeat match goal with H : runPc _ = _ |- _ => rewrite H in * end.
  all: repeat match goal with H : catPc _ = _ |- _ => rewrite H in * end.
  all: simpl in *; try done; try tauto.
  all: try (lazymatch goal with |- _ ↔ _ => idtac end; by intuition congruence).
  - intros _. destruct (catPc s) as [[]|]; simpl in *; try done;
      destruct HC as [HC _]; by specialize (HC eq_refl).
  - intros Hl. by specialize (Lf Hl).
  - intros Hl. apply Lf. by destruct (runPc s).
Qed.

Lemma reachable_leave_inv tags s : reachable tags s → leave_inv s.
Proof.
  apply reachable_inv; [apply leave_inv_init|].
  intros ? ? ? ?%reachable_mutex_inv. by apply leave_inv_step.
Qed.

(** ** Removal and cancellation *)

Lemma removing_inv_init tags : removing_inv (init tags).
Proof. split; simpl; try done. Qed.

Lemma removing_inv_step tags s l s' :
  mutex_inv s → fresh_inv s → cache_inv tags s → removing_inv s →
  step l s = Some s' → removing_inv s'.
Proof.
  intros [M0 _] [Fc _ _ _ _ _] [_ Cn _ _] [R1 R2 R3] Hs. step_cases Hs.
  all: split; simpl.
  all: try (rewrite M0 in * by done).
  all: repeat match goal with H : catPc _ = _ |- _ => rewrite H in * end.
  all: try assumption.
  (* who is marked, who is closed *)
  all: try (intros r' Hr';
            rewrite ?(heap_frame removed), ?(heap_frame done) in Hr' by done;
            first [ apply R2 in Hr' | destruct (R3 r' Hr') as [a ?]; exists a ];
            ex_goal; tauto).
  (* the cache *)
  all: try (intros k' r' Hk Hrem;
            rewrite ?(heap_frame removed) in Hrem by done;
            by specialize (R1 k' r' Hk Hrem)).
  - intros r Hr. rewrite heap_store_done in Hr. case_decide; subst.
    + exists InRun. ex_goal. tauto.
    + destruct (R3 r Hr) as [a ?]. exists a. ex_goal. tauto.
  - intros r Hr. rewrite heap_store_done in Hr. case_decide; subst.
    + exists InStop. ex_goal. tauto.
    + destruct (R3 r Hr) as [a ?]. exists a. ex_goal. tauto.
  - intros k' r' Hk Hrem. by destruct (R1 k' r' Hk Hrem).
  - intros k' r' [Hne Hk]%lookup_delete_Some Hrem. by destruct (R1 k' r' Hk Hrem).
  - intros k0 r Hk Hrem. destruct (decide (k = k0)) as [->|Hne].
    + rewrite lookup_insert_eq in Hk. simplify_eq.
      by rewrite fn_lookup_insert in Hrem.
    + rewrite lookup_insert_ne in Hk by done.
      rewrite heap_alloc in Hrem by eauto. by destruct (R1 k0 r Hk Hrem).
  - intros r Hrem. ex_goal. left. apply R2.
    destruct (decide (r = next s)) as [->|Hne].
    + by rewrite fn_lookup_insert in Hrem.
    + by rewrite fn_lookup_insert_ne in Hrem.
  - intros r Hd. destruct (decide (r = next s)) as [->|Hne].
    + by rewrite fn_lookup_insert in Hd.
    + rewrite fn_lookup_insert_ne in Hd by done.
      destruct (R3 r Hd) as [a ?]. exists a. ex_goal. tauto.
  - intros k0 r Hk Hrem. rewrite heap_store_removed in Hrem.
    case_decide; subst.
    + split; [|done].
      match goal with H : watchedServices _ !! k = Some _ |- _ =>
        apply Cn in H; apply Cn in Hk; congruence end.
    + by destruct (R1 k0 r Hk Hrem).
  - intros r Hrem. rewrite heap_store_removed in Hrem. ex_goal.
    case_decide; subst; [by right; left|left; by apply R2].
Qed.

Lemma reachable_removing_inv tags s : reachable tags s → removing_inv s.
Proof.
  apply reachable_inv; [apply removing_inv_init|].
  intros s0 l s1 Hr. apply removing_inv_step with tags.
  - by eapply reachable_mutex_inv.
  - by eapply reachable_fresh_inv.
  - by apply reachable_cache_inv.
Qed.

(** ** [stop] *)

Lemma elem_of_keys {A} (m : gmap string A) k : k ∈ keys m ↔ is_Some (m !! k).
Proof.
  unfold keys. rewrite list_elem_of_fmap. split.
  - intros ([k' x] & -> & Hx%elem_of_map_to_list). by exists x.
  - intros [x Hx]. exists (k, x). split; [done|]. by apply elem_of_map_to_list.
Qed.

Lemma elem_of_visited k name todo : k ∈ visited name todo ↔ k ≠ name ∧ k ∈ todo.
Proof. unfold visited. by rewrite list_elem_of_filter. Qed.

Lemma stop_inv_init tags : stop_inv (init tags).
Proof. split; simpl; try done. Qed.

Lemma stop_inv_step tags s l s' :
  mutex_inv s → cache_inv tags s → leave_inv s → removing_inv s →
  cancel_inv s → stop_inv s → step l s = Some s' → stop_inv s'.
Proof.
  intros [_ HM] [_ Cn _ _] [Lf Lu Lz] [R1 R2 R3] [_ C2 C3 _ _ _ _] [S1 S2] Hs.
  pose proof (HM TCatalog) as HC. simpl in HC. clear HM.
  step_cases Hs.
  all: split; simpl.
  all: repeat match goal with H : runPc _ = _ |- _ => rewrite H in * end.
  all: repeat match goal with H : catPc _ = _ |- _ => rewrite H in * end.
  all: simpl in *.
  all: try assumption.
  all: try (by intros ? ? [|[|]]).
  all: try (by intros ? ? ? [=]).
  all: try (by specialize (Lz eq_refl)).
  all: try (intros; rewrite ?(heap_frame done) by done; by eauto).
  all: try (intros ? ? ? Hpc; rewrite Hpc in Lz; by specialize (Lz eq_refl)).
  all: try (intros ? ? [Hpc|[Hpc|Hpc]]; rewrite Hpc in Lz;
            by specialize (Lz eq_refl)).
  - (* [cr.Lock()] in [stop]: every cached record is still open *)
    intros todo k r [= <-] Hk. rewrite elem_of_keys, Hk.
    split; [intros _|by eauto].
    destruct (done (heap s r)) eqn:Hd; [exfalso|done].
    destruct (R3 r Hd) as [[] Hex].
    + apply C2 in Hex. specialize (R1 k r Hk Hex).
      destruct (catPc s) as [[]|]; simpl in *; try done;
        destruct HC as [HC _]; specialize (HC eq_refl); congruence.
    + by apply C3 in Hex.
  - intros k r _ Hk. specialize (S1 [] k r eq_refl Hk).
    destruct (done (heap s r)); [done|].
    destruct S1 as [_ S1]. by apply elem_of_nil in S1.
  - (* [close(srv.done)] in [stop] *)
    intros todo0 k r [= <-] Hk. rewrite elem_of_visited, heap_store_done.
    specialize (S1 todo k r eq_refl Hk).
    case_decide; subst.
    + split; [|done]. intros [Hne _].
      match goal with H : watchedServices _ !! name = Some _ |- _ =>
        apply Cn in H; apply Cn in Hk; congruence end.
    + rewrite <-S1. split; [tauto|]. intros Hin. split; [|done].
      intros ->. congruence.
  - intros todo0 k r [= <-] Hk. rewrite elem_of_visited.
    specialize (S1 todo k r eq_refl Hk). rewrite <-S1.
    split; [tauto|]. intros Hin. split; [|done]. intros ->. congruence.
Qed.

Lemma reachable_stop_inv tags s : reachable tags s → stop_inv s.
Proof.
  apply reachable_inv; [apply stop_inv_init|].
  intros s0 l s1 Hr. apply stop_inv_step with tags.
  - by eapply reachable_mutex_inv.
  - by apply reachable_cache_inv.
  - by eapply reachable_leave_inv.
  - by eapply reachable_removing_inv.
  - by eapply reachable_cancel_inv.
Qed.

(** ** DELETED *)

Lemma deleted_inv_init tags : deleted_inv (init tags).
Proof.
  split; simpl; try done.
  all: intros r; first [apply at_most_once_nil|apply preceded_by_nil].
Qed.

Lemma deleted_inv_step s l s' :
  cancel_inv s → removing_inv s → deleted_inv s → step l s = Some s' →
  deleted_inv s'.
Proof.
  intros [C1 _ _ C4 C5 _ _] [_ R2 _] [D1 D2 D3] Hs. step_cases Hs.
  all: split; simpl.
  all: repeat match goal with H : runPc _ = _ |- _ => rewrite H in * end.
  all: simpl in *.
  all: try assumption.
  all: try (by intros ? [=]).
  all: try (intros; snoc_goal; by auto).
  all: try (intros r' Hpc Hex; ex_hyp'; by eapply D1).
  - intros r [= <-] Hex. ex_hyp'.
    eapply preceded_by_Exists in Hex; [|apply C5].
    apply C1 in Hex. congruence.
  - intros r. snoc_goal; [done|]. intros [-> _]. by apply D1.
  - intros r. snoc_goal; [done|]. intros [-> _]. apply R2. by destruct C4.
Qed.

Lemma reachable_deleted_inv tags s : reachable tags s → deleted_inv s.
Proof.
  apply reachable_inv; [apply deleted_inv_init|].
  intros s0 l s1 Hr. apply deleted_inv_step.
  - by eapply reachable_cancel_inv.
  - by eapply reachable_removing_inv.
Qed.

(** ** What [Run] leaves behind *)

(** X7: once [Run] has taken the case [<-done], none of its steps panics:
    [stop] closes the [done] of every record in the cache exactly once and
    [close(upstream)] finds the channel open.  When [Run] has returned,
    [upstream] is closed, [Run] does not hold the mutex, and every record
    in the cache has its [done] closed. *)
Theorem X7_deferred_calls tags s :
  reachable tags s →
  (∀ s',
     runLeaving (runPc s) = true →
     step LRun s = Some s' ∨ (∃ name, step (LRunRange name) s = Some s') →
     panicked s' = false) ∧
  (runPc s = R_returned →
   upstreamClosed s = true ∧ stopCh s = true ∧ mutex s ≠ Some TRun ∧
   ∀ k r, watchedServices s !! k = Some r → done (heap s r) = true).
Proof.
  intros Hr.
  destruct (reachable_leave_inv _ _ Hr) as [Lf Lu Lz].
  destruct (reachable_stop_inv _ _ Hr) as [S1 S2].
  destruct (reachable_mutex_inv _ _ Hr) as [_ HM].
  split.
  - intros s' Hl Hs.
    assert (∃ l, step l s = Some s' ∧ (l = LRun ∨ ∃ name, l = LRunRange name))
      as (l & Hs' & Hlab).
    { destruct Hs as [Hs|[name Hs]]; eauto. }
    clear Hs. step_cases Hs'; simpl; try done.
    all: try (by destruct Hlab as [?|[? ?]]).
    all: repeat match goal with H : runPc _ = _ |- _ => rewrite H in * end.
    all: try done.
    + (* [close(upstream)] *)
      destruct Lu as [Lu _]. by specialize (Lu ltac:(done)).
    + (* [close(srv.done)] in [stop] *)
      match goal with H : watchedServices _ !! _ = Some _ |- _ =>
        apply (S1 _ _ _ eq_refl) in H end.
      match goal with H : _ ∈ _, H' : _ ↔ _ |- _ => apply H' in H end.
      congruence.
  - intros Hpc. split_and!.
    + by apply Lu.
    + apply Lf. by rewrite Hpc.
    + intros Hm. apply (HM TRun) in Hm. simpl in Hm. by rewrite Hpc in Hm.
    + intros k r. apply S2. auto.
Qed.

Lemma stopWatching_state :
  runPc (after ["prod"%string] stopWatching) = R_returned ∧
  watchedServices (after ["prod"%string] stopWatching) !! "web"%string
  = Some 0%nat.
Proof. vm_compute. done. Qed.

(** X7 when the registry is stopped while "web" is watched. *)
Lemma X7_deferred_calls_witness :
  reachable ["prod"%string] (after ["prod"%string] stopWatching) ∧
  runPc (after ["prod"%string] stopWatching) = R_returned ∧
  watchedServices (after ["prod"%string] stopWatching) !! "web"%string
  = Some 0%nat ∧
  done (heap (after ["prod"%string] stopWatching) 0%nat) = true.
Proof.
  destruct stopWatching_state as [Hpc Hc].
  split; [apply after_reachable|]. split; [exact Hpc|]. split; [exact Hc|].
  destruct (X7_deferred_calls _ _ (after_reachable ["prod"%string] stopWatching))
    as [_ H].
  destruct (H Hpc) as (_ & _ & _ & Hd). exact (Hd _ _ Hc).
Defined.

(** X8: a step panics in two cases only.  Either [Run] closes, at
    [close(srv.done)] of its loop, the [done] of a removed record that is
    closed already; or a watch loop that has passed its check sends on
    [upstream] after [Run] has closed it, and then the record of that loop
    is not in the cache. *)
Theorem X8_two_ways_to_panic tags s l s' :
  reachable tags s → step l s = Some s' → panicked s' = true →
  (l = LRun ∧
   ∃ r, runPc s = R_close r ∧ removed (heap s r) = true ∧
        done (heap s r) = true) ∨
  (∃ i r, l = LWatch i ∧ watchers s !! i = Some (r, W_send) ∧
          upstreamClosed s = true ∧ runPc s = R_returned ∧
          ∀ k, watchedServices s !! k ≠ Some r).
Proof.
  intros Hr Hs Hp.
  pose proof (reachable_leave_inv _ _ Hr) as HL.
  pose proof (reachable_stop_inv _ _ Hr) as HS.
  pose proof (reachable_removing_inv _ _ Hr) as HR.
  pose proof (reachable_cancel_inv _ _ Hr) as HC.
  pose proof (reachable_watch_inv _ _ Hr) as HW.
  pose proof (reachable_mutex_inv _ _ Hr) as [_ HM].
  clear Hr. revert Hp. step_cases Hs; simpl; intros Hp; try congruence.
  all: destruct HL as [Lf Lu Lz], HS as [S1 S2], HR as [R1 R2 R3].
  all: destruct HC as [_ C2 _ C4 _ _ _], HW as [_ _ W3 _ _].
  all: repeat match goal with H : runPc _ = _ |- _ => rewrite H in * end.
  all: simpl in *.
  - (* [close(srv.done)] in [Run] *)
    left. split; [done|]. exists srv. by split_and!.
  - (* DELETED *)
    destruct Lu as [Lu _]. by specialize (Lu ltac:(done)).
  - (* NEW *)
    destruct Lu as [Lu _]. by specialize (Lu ltac:(done)).
  - (* [close(upstream)] *)
    destruct Lu as [Lu _]. by specialize (Lu ltac:(done)).
  - (* [close(srv.done)] in [stop] *)
    match goal with H : watchedServices _ !! _ = Some _ |- _ =>
      apply (S1 _ _ _ eq_refl) in H end.
    match goal with H : _ ∈ _, H' : _ ↔ _ |- _ => apply H' in H end.
    congruence.
  - (* CHANGED *)
    right.
    match goal with H : watchers _ !! _ = Some (?n, _) |- _ =>
      exists i, n; pose proof (W3 _ _ H) as Hno end.
    assert (runPc s = R_returned) as Hpc by (by apply Lu).
    split_and!; try done.
    intros k Hk. assert (done (heap s n) = true) as Hd by (apply (S2 k); auto).
    destruct (R3 n Hd) as [[] Hex]; [|done].
    apply C2 in Hex. specialize (R1 k n Hk Hex).
    rewrite Hpc in Lz. specialize (Lz eq_refl).
    by destruct (catPc s) as [[]|].
Qed.

Lemma removedBeforeDispatch_step :
  step LRun (after ["prod"%string] removedBeforeDispatch)
  = Some (after ["prod"%string] (removedBeforeDispatch ++ [LRun])) ∧
  panicked (after ["prod"%string] (removedBeforeDispatch ++ [LRun])) = true.
Proof. vm_compute. done. Qed.

(** X8 when "web" is removed before [Run] has received its record: the
    record comes out of [update] twice, and the second [close(srv.done)]
    panics. *)
Lemma X8_two_ways_to_panic_witness :
  reachable ["prod"%string] (after ["prod"%string] removedBeforeDispatch) ∧
  step LRun (after ["prod"%string] removedBeforeDispatch)
  = Some (after ["prod"%string] (removedBeforeDispatch ++ [LRun])) ∧
  panicked (after ["prod"%string] (removedBeforeDispatch ++ [LRun])) = true ∧
  ∃ r, runPc (after ["prod"%string] removedBeforeDispatch) = R_close r ∧
       done (heap (after ["prod"%string] removedBeforeDispatch) r) = true.
Proof.
  destruct removedBeforeDispatch_step as (Hs & Hp).
  split; [apply after_reachable|]. split; [exact Hs|]. split; [exact Hp|].
  destruct (X8_two_ways_to_panic _ _ _ _
              (after_reachable ["prod"%string] removedBeforeDispatch) Hs Hp)
    as [[_ (r & Hpc & _ & Hd)]|(i & r & Hl & _)].
  - exists r. by split.
  - discriminate Hl.
Defined.

Lemma cache_final_step tags s l s' :
  reachable tags s → runStopping (runPc s) = true → step l s = Some s' →
  runStopping (runPc s') = true ∧
  watchedServices s' = watchedServices s ∧ next s' = next s ∧
  update s' = update s ∧
  (∀ r, removed (heap s' r) = removed (heap s r)) ∧
  ∃ es, trace s' = trace s ++ es ∧
        Forall (λ e, who e = TRun → ∀ r u, act e ≠ AEmit r u) es.
Proof.
  intros Hr Hst Hs. pose proof (reachable_leave_inv _ _ Hr) as [_ _ Lz].
  specialize (Lz Hst). clear Hr. step_cases Hs.
  all: repeat match goal with H : runPc _ = _ |- _ => rewrite H in * end.
  all: repeat match goal with H : catPc _ = _ |- _ => rewrite H in * end.
  all: simpl in *; try done.
  all: split_and!; try done; try assumption.
  all: try (intros r'; by rewrite ?(heap_frame removed)).
  all: try (eexists; split;
            [first [ reflexivity | symmetry; apply app_nil_r
                   | by rewrite <-app_assoc ]|];
            repeat constructor; by simpl).
  all: match goal with H : runPc _ = _ |- _ => by rewrite H end.
Qed.

Lemma cache_final_exec tags ls : ∀ s s',
  reachable tags s → runStopping (runPc s) = true → exec ls s = Some s' →
  runStopping (runPc s') = true ∧
  watchedServices s' = watchedServices s ∧ next s' = next s ∧
  update s' = update s ∧
  (∀ r, removed (heap s' r) = removed (heap s r)) ∧
  ∃ es, trace s' = trace s ++ es ∧
        Forall (λ e, who e = TRun → ∀ r u, act e ≠ AEmit r u) es.
Proof.
  induction ls as [|l ls IH]; intros s s' Hr Hst He; simpl in He.
  - simplify_eq. split_and!; try done. exists []. by rewrite app_nil_r.
  - destruct (step l s) as [s1|] eqn:Hs; [simpl in He|done].
    destruct (cache_final_step _ _ _ _ Hr Hst Hs)
      as (Hst1 & Hc1 & Hn1 & Hu1 & Hr1 & es1 & Ht1 & Hf1).
    destruct (IH s1 s' (reachable_step _ _ _ _ Hr Hs) Hst1 He)
      as (Hst' & Hc' & Hn' & Hu' & Hr' & es' & Ht' & Hf').
    split_and!; try congruence.
    exists (es1 ++ es'). rewrite Ht', Ht1, <-app_assoc. split; [done|].
    by apply Forall_app.
Qed.

(** X9: when the caller has closed [done], [Run] has taken the case
    [<-done] of its [select] and its [stop] holds the mutex, the cache is
    final: whatever the goroutines do afterwards, no name is added to the
    cache or deleted from it, no record is made, marked removed or queued,
    and [Run] sends nothing more.  (A [stop] that runs because [Run]
    panics, with [done] still open, is not covered.) *)
Theorem X9_cache_final tags ls s s' :
  reachable tags s →
  stopCh s = true → runStopping (runPc s) = true →
  exec ls s = Some s' →
  stopCh s' = true ∧ runStopping (runPc s') = true ∧
  watchedServices s' = watchedServices s ∧ next s' = next s ∧
  update s' = update s ∧
  (∀ r, removed (heap s' r) = removed (heap s r)) ∧
  ∃ es, trace s' = trace s ++ es ∧
        Forall (λ e, who e = TRun → ∀ r u, act e ≠ AEmit r u) es.
Proof.
  intros Hr _ Hst He.
  destruct (cache_final_exec _ _ _ _ Hr Hst He) as (Hst' & H).
  split; [|by split].
  destruct (reachable_leave_inv _ _ (exec_reachable _ _ _ _ Hr He)) as [Lf _ _].
  apply Lf. by destruct (runPc s').
Qed.

Lemma stopWatching_exit :
  exec [LCatReply (Ok ∅ 7); LCat; LCat; LCat] (after ["prod"%string] stopWatching)
  = Some (after ["prod"%string]
            (stopWatching ++ [LCatReply (Ok ∅ 7); LCat; LCat; LCat])) ∧
  runStopping (runPc (after ["prod"%string] stopWatching)) = true ∧
  catPc (after ["prod"%string]
           (stopWatching ++ [LCatReply (Ok ∅ 7); LCat; LCat; LCat]))
  = Some C_returned.
Proof. vm_compute. done. Qed.

Lemma stopWatching_stopped :
  stopCh (after ["prod"%string] stopWatching) = true.
Proof. vm_compute. reflexivity. Qed.

(** X9 when the registry has been stopped while "web" is watched and the
    catalog then loses "web": [watchServices] returns and "web" stays
    cached. *)
Lemma X9_cache_final_witness :
  reachable ["prod"%string] (after ["prod"%string] stopWatching) ∧
  stopCh (after ["prod"%string] stopWatching) = true ∧
  runStopping (runPc (after ["prod"%string] stopWatching)) = true ∧
  exec [LCatReply (Ok ∅ 7); LCat; LCat; LCat] (after ["prod"%string] stopWatching)
  = Some (after ["prod"%string]
            (stopWatching ++ [LCatReply (Ok ∅ 7); LCat; LCat; LCat])) ∧
  watchedServices (after ["prod"%string]
                     (stopWatching ++ [LCatReply (Ok ∅ 7); LCat; LCat; LCat]))
  = watchedServices (after ["prod"%string] stopWatching).
Proof.
  destruct stopWatching_exit as (He & Hst & _).
  split; [apply after_reachable|]. split; [exact stopWatching_stopped|].
  split; [exact Hst|]. split; [exact He|].
  destruct (X9_cache_final _ _ _ _
              (after_reachable ["prod"%string] stopWatching)
              stopWatching_stopped Hst He) as (_ & _ & Hc & _).
  exact Hc.
Defined.

(** ** The mutex *)

(** X10: the mutex is held exactly by the goroutine that is between a
    [cr.Lock()] and the [cr.Unlock()] that follows it, so at most one
    goroutine is there at a time; a goroutine that has returned does not
    hold the mutex; and every [cr.Unlock()] is made by the holder. *)
Theorem X10_mutual_exclusion tags s :
  reachable tags s →
  (∀ t, mutex s = Some t ↔ critical s t = true) ∧
  (∀ t1 t2, critical s t1 = true → critical s t2 = true → t1 = t2) ∧
  (runPc s = R_returned → mutex s ≠ Some TRun) ∧
  (catPc s = Some C_returned → mutex s ≠ Some TCatalog) ∧
  (∀ i r, watchers s !! i = Some (r, W_returned) → mutex s ≠ Some (TWatch i)) ∧
  Forall (λ e, act e = AUnlock → holder e = Some (who e)) (trace s).
Proof.
  intros Hr. destruct (reachable_mutex_inv _ _ Hr) as [_ HM]. split_and!.
  - intros t. by rewrite HM.
  - intros t1 t2 H1%HM H2%HM. congruence.
  - intros Hpc Hm%HM. simpl in Hm. by rewrite Hpc in Hm.
  - intros Hpc Hm%HM. simpl in Hm. by rewrite Hpc in Hm.
  - intros i r Hw Hm%HM. simpl in Hm. by rewrite Hw in Hm.
  - eapply Forall_impl; [exact (reachable_discipline _ _ Hr)|].
    intros e [[Hg _] _] Ha. apply Hg. by rewrite Ha.
Qed.

Lemma lifeOfWeb_mutex :
  critical (after ["prod"%string] (LRun :: discover webProd 1 ++ dispatchNew
                                     ++ fetch 0 5 ++ lockAndCheck 0))
           (TWatch 0) = true ∧
  catPc (after ["prod"%string] (LRun :: discover webProd 1 ++ dispatchNew
                                  ++ fetch 0 5 ++ lockAndCheck 0))
  = Some C_query.
Proof. vm_compute. done. Qed.

(** X10 when the watch loop of "web" has taken the mutex: it is the
    holder. *)
Lemma X10_mutual_exclusion_witness :
  reachable ["prod"%string]
    (after ["prod"%string] (LRun :: discover webProd 1 ++ dispatchNew
                              ++ fetch 0 5 ++ lockAndCheck 0)) ∧
  mutex (after ["prod"%string] (LRun :: discover webProd 1 ++ dispatchNew
                                  ++ fetch 0 5 ++ lockAndCheck 0))
  = Some (TWatch 0).
Proof.
  split; [apply after_reachable|].
  destruct (X10_mutual_exclusion _ _
              (after_reachable ["prod"%string]
                 (LRun :: discover webProd 1 ++ dispatchNew
                    ++ fetch 0 5 ++ lockAndCheck 0))) as [H _].
  apply H. apply lifeOfWeb_mutex.
Defined.

(** ** DELETED *)

(** X11: a record gets at most one DELETED, and only after
    [watchServices] has marked it removed; once it is sent the record is
    marked removed, its [done] is closed, and it is in the cache only for
    the moment [watchServices] takes to delete it. *)
Theorem X11_deleted_once tags s :
  reachable tags s →
  ∀ r,
    at_most_once (emits registry.DELETED r) (trace s) ∧
    preceded_by (marksRemoved r) (emits registry.DELETED r) (trace s) ∧
    (Exists (emits registry.DELETED r) (trace s) →
     removed (heap s r) = true ∧ done (heap s r) = true ∧
     ∀ k, watchedServices s !! k = Some r → removing k r (catPc s)).
Proof.
  intros Hr r.
  destruct (reachable_deleted_inv _ _ Hr) as [_ D2 D3].
  destruct (reachable_removing_inv _ _ Hr) as [R1 _ _].
  pose proof (reachable_cancel_inv _ _ Hr) as HC.
  split_and!; [done..|]. intros Hex.
  assert (Exists (closes InRun r) (trace s)) as Hcl.
  { eapply preceded_by_Exists; [|exact Hex]. by destruct HC. }
  assert (removed (heap s r) = true) as Hrem by (by destruct HC as [_ C2 _ _ _ _ _]; apply C2).
  split_and!; [done| |].
  - destruct HC as [C1 _ _ _ _ _ _]. by eapply C1.
  - intros k Hk. by apply R1.
Qed.

(** X11 after the whole life of "web": its record is marked removed and
    cancelled. *)
Lemma X11_deleted_once_witness :
  reachable ["prod"%string] (after ["prod"%string] lifeOfWeb) ∧
  removed (heap (after ["prod"%string] lifeOfWeb) 0%nat) = true ∧
  done (heap (after ["prod"%string] lifeOfWeb) 0%nat) = true.
Proof.
  split; [apply after_reachable|].
  destruct (X11_deleted_once _ _ (after_reachable ["prod"%string] lifeOfWeb) 0%nat)
    as (_ & _ & H).
  destruct H as (Hrem & Hd & _); [|by split].
  apply Exists_exists. eexists. split.
  - eapply list_elem_of_lookup_2. apply lifeOfWeb_deleted.
  - by simpl.
Defined.

(** ** From a reply to its CHANGED *)

Lemma carry_step s l s' i r pc nodes index :
  fresh_inv s → launch_inv s → step l s = Some s' → ¬ repliesTo i l →
  watchers s !! i = Some (r, pc) → carrying nodes index r pc s →
  ∃ pc' es,
    watchers s' !! i = Some (r, pc') ∧ carrying nodes index r pc' s' ∧
    trace s' = trace s ++ es ∧
    Forall (λ e, sentBy i e → act e = AEmit r (changedFor s r nodes)) es.
Proof.
  intros HF HL Hs Hq Hw Hset. step_cases Hs.
  all: destruct HF as [_ _ Fw _ _ _], HL as [_ _ _ Lu].
  all: pose proof (Forall_lookup_1 _ _ _ _ Fw Hw) as Hlt; simpl in Hlt.
  all: simpl.
  (* steps of [Run] and of [watchServices] *)
  all: try (exists pc; eexists; split; [first [done|by apply lookup_app_l_Some]|];
            split; [unfold carrying in *; destruct pc; simpl; try done;
                    by rewrite ?(heap_frame lastIndex), ?(heap_frame Instances),
                               ?heap_alloc by done|];
            split; [first [ reflexivity | symmetry; apply app_nil_r ]|];
            repeat constructor; by intros [[=] _]).
  (* steps of a watch loop: this one, or the loop of another record *)
  all: match goal with
       | H : watchers _ !! ?j = Some (?n, _) |- context [<[?j := _]> _] =>
           destruct (decide (j = i)) as [->|Hne];
           [ first [ by exfalso; apply Hq; exact eq_refl
                   | simplify_eq; eexists; eexists;
                     split; [apply list_lookup_insert_eq; by eapply lookup_lt_Some|] ]
           | assert (n ≠ r) by (intros ->; apply Hne; eapply Lu; eauto);
             exists pc; eexists; split; [by rewrite list_lookup_insert_ne|] ]
       | _ => idtac
       end.
  all: try (split; [|split;
              [first [ reflexivity | symmetry; apply app_nil_r
                     | by rewrite <-app_assoc ]|];
              repeat constructor; simpl;
              first [ by intros [_ (? & ? & [=])]
                    | by intros [[=] _]
                    | intros _; unfold changedUpdate, changedFor;
                      by destruct Hset as [-> _] ]];
            unfold carrying in *; try destruct pc; simpl in *; try done;
            rewrite ?(heap_frame lastIndex), ?(heap_frame Instances) by done;
            rewrite ?fn_lookup_insert, ?fn_lookup_insert_ne by done; simpl;
            rewrite ?fn_lookup_insert, ?fn_lookup_insert_ne by done; simpl;
            first [done|by destruct Hset as [-> ->]]).
Qed.

Lemma carry_exec tags ls : ∀ s s' i r pc nodes index,
  reachable tags s → exec ls s = Some s' → Forall (λ l, ¬ repliesTo i l) ls →
  watchers s !! i = Some (r, pc) → carrying nodes index r pc s →
  ∃ pc' es,
    watchers s' !! i = Some (r, pc') ∧ carrying nodes index r pc' s' ∧
    trace s' = trace s ++ es ∧
    Forall (λ e, sentBy i e → act e = AEmit r (changedFor s r nodes)) es.
Proof.
  induction ls as [|l ls IH]; intros s s' i r pc nodes index Hr He Hq Hw Hset;
    simpl in He.
  - simplify_eq. exists pc, []. by rewrite app_nil_r.
  - destruct (step l s) as [s1|] eqn:Hs; [simpl in He|done].
    apply Forall_cons in Hq as [Hl Hq].
    destruct (carry_step s l s1 i r pc nodes index)
      as (pc1 & es1 & Hw1 & Hset1 & Ht1 & Hf1);
      [by eapply reachable_fresh_inv|by eapply reachable_launch_inv|done..|].
    destruct (IH s1 s' i r pc1 nodes index)
      as (pc' & es' & Hw' & Hset' & Ht' & Hf');
      [by eapply reachable_step|done..|].
    assert (changedFor s1 r nodes = changedFor s r nodes) as Hsame.
    { destruct (reachable_fresh_inv _ _ Hr) as [_ _ Fw _ _ _].
      pose proof (Forall_lookup_1 _ _ _ _ Fw Hw) as Hlt. simpl in Hlt.
      destruct (records_stable s l s1 r Hs Hlt) as (HN & HT & _).
      unfold changedFor. by rewrite HN, HT. }
    rewrite Hsame in Hf'.
    exists pc', (es1 ++ es'). split_and!; try done.
    + by rewrite Ht', Ht1, <-app_assoc.
    + by apply Forall_app.
Qed.


(** X12: when a watch loop gets a reply with a new index, every update it
    sends until its next reply is the CHANGED of its record that carries
    the instance map built from the nodes of that reply, whatever the
    other goroutines do in between; and when the loop is back at its
    query, the record holds that map and that index. *)
Theorem X12_changed_carries_reply tags s i r nodes index ls s' :
  reachable tags s →
  watchers s !! i = Some (r, W_query) →
  index ≠ lastIndex (heap s r) →
  Forall (λ l, ¬ repliesTo i l) ls →
  exec (LWatchReply i (Ok nodes index) :: ls) s = Some s' →
  ∃ es,
    trace s' = trace s ++ es ∧
    Forall (λ e, sentBy i e → act e = AEmit r (changedFor s r nodes)) es ∧
    (watchers s' !! i = Some (r, W_query) →
     Instances (heap s' r) = buildInstances nodes ∧
     lastIndex (heap s' r) = index).
Proof.
  intros Hr Hw Hi Hq He. simpl in He.
  destruct (step (LWatchReply i (Ok nodes index)) s) as [s0|] eqn:Hs0;
    [simpl in He|done].
  assert (watchers s0 !! i = Some (r, W_store nodes index) ∧
          trace s0 = trace s ∧ changedFor s0 r nodes = changedFor s r nodes)
    as (Hw0 & Ht0 & Hc0).
  { unfold step, watchReply in Hs0.
    destruct (panicked s); [done|]. rewrite Hw in Hs0.
    rewrite decide_False in Hs0 by done. simplify_eq. split_and!; try done.
    apply list_lookup_insert_eq. by eapply lookup_lt_Some. }
  destruct (carry_exec tags ls s0 s' i r (W_store nodes index) nodes index)
    as (pc' & es & Hw' & Hset' & Ht' & Hf');
    [by eapply reachable_step|done..|].
  exists es. rewrite <-Ht0, <-Hc0. split_and!; try done.
  intros Hw''. rewrite Hw' in Hw''. by simplify_eq.
Qed.

Lemma watching_refresh :
  exec (LWatchReply 0 (Ok [node1] 5)
        :: LWatch 0 :: lockAndCheck 0 ++ sendAndUnlock 0)
       (after ["prod"%string] watching)
  = Some (after ["prod"%string] (watching ++ refresh 0 5)) ∧
  watchers (after ["prod"%string] (watching ++ refresh 0 5)) !! 0%nat
  = Some (0%nat, W_query) ∧
  5 ≠ lastIndex (heap (after ["prod"%string] watching) 0%nat).
Proof. vm_compute. done. Qed.

(** X12 for the watch loop of "web" and a reply with one node. *)
Lemma X12_changed_carries_reply_witness :
  reachable ["prod"%string] (after ["prod"%string] watching) ∧
  watchers (after ["prod"%string] watching) !! 0%nat = Some (0%nat, W_query) ∧
  5 ≠ lastIndex (heap (after ["prod"%string] watching) 0%nat) ∧
  exec (LWatchReply 0 (Ok [node1] 5)
        :: LWatch 0 :: lockAndCheck 0 ++ sendAndUnlock 0)
       (after ["prod"%string] watching)
  = Some (after ["prod"%string] (watching ++ refresh 0 5)) ∧
  Instances (heap (after ["prod"%string] (watching ++ refresh 0 5)) 0%nat)
  = buildInstances [node1].
Proof.
  destruct watching_state as (_ & Hw & _).
  destruct watching_refresh as (He & Hw' & Hi).
  split; [apply after_reachable|]. split; [exact Hw|]. split; [exact Hi|].
  split; [exact He|].
  destruct (X12_changed_carries_reply ["prod"%string]
              (after ["prod"%string] watching) 0%nat 0%nat [node1] 5
              (LWatch 0 :: lockAndCheck 0 ++ sendAndUnlock 0)
              (after ["prod"%string] (watching ++ refresh 0 5))
              (after_reachable _ _) Hw Hi) as (es & _ & _ & H).
  - repeat constructor; simpl; tauto.
  - exact He.
  - by destruct (H Hw').
Defined.

(** ** One pass of [watchServices] *)

Lemma deleting_frame tags services cache0 todo s s' :
  watchedServices s' = watchedServices s →
  (∀ r, removed (heap s r) = true → removed (heap s' r) = true) →
  deleting tags services cache0 todo s → deleting tags services cache0 todo s'.
Proof.
  intros Hc Hrem [H1 H2]. split.
  - intros k r Hk. specialize (H1 k r Hk). rewrite Hc.
    case_decide; [|done]. destruct H1. auto.
  - intros k Hk. rewrite Hc. by apply H2.
Qed.

Lemma pass_frame tags services cache0 s s' :
  catPc s' = catPc s → watchedServices s' = watchedServices s →
  (∀ r, removed (heap s r) = true → removed (heap s' r) = true) →
  (next s ≤ next s')%nat →
  pass tags services cache0 s → pass tags services cache0 s'.
Proof.
  intros Hpc Hc Hrem Hn [H0 Hp]. split.
  - intros k r Hk. specialize (H0 k r Hk). lia.
  - rewrite Hpc. destruct (catPc s) as [[]|]; try done.
    all: try (by rewrite Hc).
    all: try (destruct Hp as [-> Hp]).
  all: try (split; [reflexivity|]).
    all: try (unfold adding in *; by rewrite Hc).
    all: try (by eapply deleting_frame).
    all: destruct Hp as (? & ? & Hr & ?); split_and!; try done.
    all: try (by eapply deleting_frame).
    all: intros r; rewrite Hc; auto.
Qed.

Lemma not_elem_of_visited k name todo :
  k ∉ visited name todo ↔ k = name ∨ k ∉ todo.
Proof.
  rewrite elem_of_visited. destruct (decide (k = name)); [|tauto].
  split; [auto|]. intros _ [? _]. done.
Qed.

Lemma pass_step tags services cache0 s l s' :
  mutex_inv s → cache_inv tags s → fresh_inv s → pass tags services cache0 s →
  step l s = Some s' → ¬ catReplies l → pass tags services cache0 s'.
Proof.
  intros [M0 _] [Ct _ _ _] [Fc _ _ _ _ _] Hp Hs Hl. step_cases Hs.
  (* the other goroutines *)
  all: try done.
  all: try (by destruct Hl).
  all: try (apply (pass_frame _ _ _ s); simpl; [done|done| |lia|done];
            intros r'; by rewrite ?(heap_frame removed)).
  all: destruct Hp as [Hnx Hp]; unfold pass; simpl.
  all: try (rewrite M0 in * by done).
  all: repeat match goal with H : catPc _ = _ |- _ => rewrite H in * end.
  all: simpl in *; try done.
  all: (split; [intros k' r' Hk'; specialize (Hnx k' r' Hk'); lia|]).
  all: try (destruct Hp as [-> Hp]).
  all: try (split; [reflexivity|]).
  - (* into the first loop *)
    rewrite <-Hp. split; simpl; [done|]. intros k Hk. rewrite Hk.
    split; [by intros [? [=]]|]. intros [Hnot (v & Hv & _)].
    destruct Hnot. apply elem_of_keys. eauto.
  - (* from the first loop into the second *)
    destruct Hp as [H1 H2]. split; simpl.
    + intros k r Hk. specialize (H1 k r Hk). case_decide as Hd; [|done].
      destruct Hd as [Hd _]. destruct Hd. apply elem_of_keys. eauto.
    + intros k Hk. rewrite (H2 k Hk). split; [tauto|].
      intros Hw. split; [|done]. apply not_elem_of_nil.
  - exact Hp.
  - (* [delete(cr.watchedServices, name)] *)
    destruct Hp as (Hnot & Hsv & Hrm & H1 & H2). split; simpl.
    + intros k r Hk. specialize (H1 k r Hk).
      destruct (decide (k = name)) as [->|Hne].
      * rewrite decide_True by done. rewrite lookup_delete_eq.
        rewrite decide_False in H1 by (intros [Hin _]; apply Hin; by left).
        split; [done|]. by apply Hrm.
      * rewrite lookup_delete_ne by done.
        destruct (decide ((k ∉ todo) ∧ services !! k = None)) as [Hd|Hd].
        -- rewrite decide_True in H1; [done|].
           split; [|tauto]. rewrite not_elem_of_cons. tauto.
        -- rewrite decide_False in H1; [done|].
           rewrite not_elem_of_cons. tauto.
    + intros k Hk. rewrite <-(H2 k Hk).
      destruct (decide (k = name)) as [->|Hne].
      * rewrite lookup_delete_eq. split; [by intros [? [=]]|].
        intros Hw%H2; [|done]. destruct Hw as (v & Hv & _). congruence.
      * by rewrite lookup_delete_ne.
  - (* a service without a watched tag *)
    destruct Hp as [H1 H2']. split; simpl; [done|]. intros k' Hk'.
    rewrite (H2' k' Hk'), not_elem_of_visited. split; [tauto|].
    intros [[->|Hn] Hw]; [exfalso|tauto]. destruct Hw as (v & Hv & Hm).
    match goal with H : matchTags _ _ = _ |- _ =>
      rewrite Hv in H; simpl in H; rewrite H in Hm end.
    done.
  - (* a service that is cached *)
    destruct Hp as [H1 H2']. split; simpl; [done|]. intros k' Hk'.
    rewrite (H2' k' Hk'), not_elem_of_visited. split; [tauto|].
    intros [[->|Hn] Hw]; [exfalso|tauto].
    assert (is_Some (watchedServices s !! k)) as Hs by eauto.
    apply H2' in Hs; [|done]. tauto.
  - (* a new service *)
    destruct Hp as [H1 H2']. split; simpl.
    + intros k' r Hk'. rewrite lookup_insert_ne; [by apply H1|].
      intros ->. apply H1 in Hk'. congruence.
    + intros k' Hk'. rewrite not_elem_of_visited.
      destruct (decide (k = k')) as [->|Hne].
      * rewrite lookup_insert_eq. split; [intros _|by eauto].
        split; [by left|].
        match goal with H : matchTags _ _ = _ |- _ => rename H into Hm end.
        destruct (services !! k') as [v|] eqn:Hv; [|done].
        exists v. split; [done|]. simpl in Hm. by rewrite Hm.
      * rewrite lookup_insert_ne by done. rewrite (H2' k' Hk').
        split; [tauto|]. intros [[->|Hn] Hw]; [done|tauto].
  - (* a cached name that is still listed *)
    destruct Hp as [H1 H2']. split; simpl; [|done].
    intros k' r Hk'. specialize (H1 k' r Hk').
    destruct (decide (k' = k)) as [->|Hne].
    + rewrite decide_False by (intros [_ ?]; congruence).
      by rewrite decide_False in H1 by (by intros [? _]).
    + erewrite decide_ext; [exact H1|]. rewrite not_elem_of_visited. tauto.
  - (* a cached name that is no longer listed *)
    destruct Hp as [H1 H2'].
    split; [rewrite not_elem_of_visited; by left|]. split; [done|].
    split; [intros r Hr; simplify_eq; by rewrite fn_lookup_insert|].
    split; simpl.
    + intros k' r Hk'. specialize (H1 k' r Hk').
      destruct (decide (k' = k)) as [->|Hne].
      * rewrite decide_False by (intros [Hin _]; apply Hin; by left).
        by rewrite decide_False in H1 by (by intros [? _]).
      * destruct (decide ((k' ∉ todo) ∧ services !! k' = None)) as [Hd|Hd].
        -- rewrite decide_True.
           ++ split; [tauto|]. rewrite heap_store_removed.
              case_decide; [done|tauto].
           ++ rewrite not_elem_of_cons, not_elem_of_visited. tauto.
        -- rewrite decide_False; [done|].
           rewrite not_elem_of_cons, not_elem_of_visited. tauto.
    + done.
  - (* a name that is not cached *)
    destruct Hp as [H1 H2']. split; simpl; [|done].
    intros k' r Hk'. specialize (H1 k' r Hk').
    destruct (decide (k' = k)) as [->|Hne].
    + rewrite decide_False in H1 by (by intros [? _]). congruence.
    + erewrite decide_ext; [exact H1|]. rewrite not_elem_of_visited. tauto.
Qed.

Lemma pass_exec tags services cache0 ls : ∀ s s',
  reachable tags s → pass tags services cache0 s → exec ls s = Some s' →
  Forall (λ l, ¬ catReplies l) ls → pass tags services cache0 s'.
Proof.
  induction ls as [|l ls IH]; intros s s' Hr Hp He Hq; simpl in He.
  - by simplify_eq.
  - destruct (step l s) as [s1|] eqn:Hs; [simpl in He|done].
    apply Forall_cons in Hq as [Hl Hq].
    apply (IH s1 s'); [by eapply reachable_step| |done..].
    eapply pass_step; [| | |exact Hp|exact Hs|exact Hl].
    + by eapply reachable_mutex_inv.
    + by apply reachable_cache_inv.
    + by eapply reachable_fresh_inv.
Qed.

Lemma matchTags_some tagsToWatch v :
  (matchTags tagsToWatch v).1 = false ↔ ∃ t, t ∈ v ∧ t ∈ tagsToWatch.
Proof.
  rewrite matchTags_spec. unfold lastMatch.
  destruct (last _) as [t|] eqn:Hl; simpl.
  - split; [intros _|done]. apply last_Some_elem_of in Hl.
    apply list_elem_of_filter in Hl. exists t. tauto.
  - split; [done|]. intros (t & Hv & Hw). apply last_None in Hl.
    by destruct (filter_nil_not_elem_of _ _ t Hl Hw).
Qed.

(** X13: one pass of [watchServices] over a reply with a new index, from
    the reply to the next query and whatever the other goroutines do in
    between.  A name that was cached stays cached, with its record, if the
    reply lists it (whatever its tags are now); if not, it is deleted from
    the cache and its record is marked removed.  A name that was not cached
    is cached afterwards exactly when the reply lists it with a tag that is
    watched. *)
Theorem X13_one_pass tags s services index ls s' :
  reachable tags s →
  catPc s = Some C_query →
  index ≠ catLastIndex s →
  Forall (λ l, ¬ catReplies l) ls →
  exec (LCatReply (Ok services index) :: ls) s = Some s' →
  catPc s' = Some C_query →
  (∀ k r,
     watchedServices s !! k = Some r →
     if decide (services !! k = None)
     then watchedServices s' !! k = None ∧ removed (heap s' r) = true
     else watchedServices s' !! k = Some r) ∧
  (∀ k,
     watchedServices s !! k = None →
     (is_Some (watchedServices s' !! k) ↔
      ∃ v t, services !! k = Some v ∧ t ∈ v ∧ t ∈ tags)).
Proof.
  intros Hr Hpc Hi Hq He Hpc'. simpl in He.
  destruct (step (LCatReply (Ok services index)) s) as [s0|] eqn:Hs0;
    [simpl in He|done].
  assert (pass tags services (watchedServices s) s0) as Hp.
  { unfold step, catReply in Hs0. destruct (panicked s); [done|].
    rewrite Hpc, decide_False in Hs0 by done. simplify_eq.
    split; simpl; [|done].
    destruct (reachable_fresh_inv _ _ Hr) as [Fc _ _ _ _ _]. exact Fc. }
  eapply pass_exec in Hp; [|by eapply reachable_step|exact He|exact Hq].
  destruct Hp as [_ Hp]. rewrite Hpc' in Hp. destruct Hp as [H1 H2]. split.
  - intros k r Hk. specialize (H1 k r Hk).
    erewrite decide_ext; [exact H1|]. split; [|tauto].
    intros Hn. split; [apply not_elem_of_nil|done].
  - intros k Hk. rewrite (H2 k Hk). unfold wanted. split.
    + intros (v & Hv & (t & Ht)%matchTags_some). eauto.
    + intros (v & t & Hv & Ht). exists v. split; [done|].
      apply matchTags_some. eauto.
Qed.

Lemma watching_remove :
  exec (remove 2) (after ["prod"%string] watching)
  = Some (after ["prod"%string] (watching ++ remove 2)) ∧
  watchedServices (after ["prod"%string] watching) !! "web"%string
  = Some 0%nat ∧
  2 ≠ catLastIndex (after ["prod"%string] watching) ∧
  catPc (after ["prod"%string] (watching ++ remove 2)) = Some C_query.
Proof. vm_compute. done. Qed.

(** X13 when "web" is watched and the catalog comes back empty. *)
Lemma X13_one_pass_witness :
  reachable ["prod"%string] (after ["prod"%string] watching) ∧
  catPc (after ["prod"%string] watching) = Some C_query ∧
  2 ≠ catLastIndex (after ["prod"%string] watching) ∧
  exec (remove 2) (after ["prod"%string] watching)
  = Some (after ["prod"%string] (watching ++ remove 2)) ∧
  catPc (after ["prod"%string] (watching ++ remove 2)) = Some C_query ∧
  watchedServices (after ["prod"%string] (watching ++ remove 2)) !! "web"%string
  = None ∧
  removed (heap (after ["prod"%string] (watching ++ remove 2)) 0%nat) = true.
Proof.
  destruct watching_state as (_ & _ & Hpc).
  destruct watching_remove as (He & Hc & Hi & Hpc').
  split; [apply after_reachable|]. split; [exact Hpc|]. split; [exact Hi|].
  split; [exact He|]. split; [exact Hpc'|].
  destruct (X13_one_pass ["prod"%string] (after ["prod"%string] watching) ∅ 2
              [LCat; LCat; LCat; LCatRange "web"; LCat; LCat; LCat; LCat]
              (after ["prod"%string] (watching ++ remove 2))
              (after_reachable _ _) Hpc Hi) as [H _].
  - repeat constructor; simpl; tauto.
  - exact He.
  - exact Hpc'.
  - exact (H "web"%string 0%nat Hc).
Defined.

(** ** Who does what *)

(** X14: NEW and DELETED are sent by [Run] alone, and [Run] alone closes
    channels and starts goroutines; a CHANGED is sent by a watch loop of
    the record it is about, and the [done] a watch loop polls is that of
    its own record. *)
Theorem X14_senders tags s :
  reachable tags s →
  Forall (λ e,
    match act e with
    | AEmit r u =>
        if decide (registry.UpdateType_ u = registry.CHANGED)
        then watches s (who e) r else who e = TRun
    | ACloseDone _ _ | AGo _ | ACloseUpstream => who e = TRun
    | ACheckDone r _ => watches s (who e) r
    | _ => True
    end) (trace s).
Proof.
  intros Hr. apply reachable_discipline in Hr.
  eapply Forall_impl; [exact Hr|]. intros e [_ Ha].
  unfold author in Ha. destruct (act e); simpl in *; auto.
  case_decide as Hu; [by rewrite Hu in Ha|].
  by destruct (registry.UpdateType_ u).
Qed.

(** X14 after the whole life of "web", at its DELETED. *)
Lemma X14_senders_witness :
  reachable ["prod"%string] (after ["prod"%string] lifeOfWeb) ∧
  who (mkEntry TRun None
         (AEmit 0 (registry.mkUpdate "web" registry.DELETED ∅ "prod"))) = TRun.
Proof.
  split; [apply after_reachable|].
  pose proof (X14_senders _ _ (after_reachable ["prod"%string] lifeOfWeb)) as H.
  rewrite Forall_lookup in H. exact (H 17%nat _ lifeOfWeb_deleted).
Defined.

(** ** The fields of a record *)

Lemma record_step s l s' r :
  step l s = Some s' → (r < next s)%nat →
  (removed (heap s r) = true → removed (heap s' r) = true) ∧
  (running (heap s r) = true → running (heap s' r) = true) ∧
  (done (heap s r) = true → done (heap s' r) = true).
Proof.
  intros Hs Hr. step_cases Hs; simpl.
  all: rewrite ?(heap_frame removed), ?(heap_frame running), ?(heap_frame done)
    by done.
  all: rewrite ?heap_alloc by done.
  all: try done.
  all: rewrite ?heap_store_removed, ?heap_store_running, ?heap_store_done.
  all: rewrite ?(heap_frame removed), ?(heap_frame running), ?(heap_frame done)
    by done.
  all: split_and!; try done; by case_decide.
Qed.

(** X15: the name and the tag of a record never change once the record is
    made, and its flags [removed], [running] and [done] are never reset. *)
Theorem X15_record_fields ls : ∀ s s' r,
  exec ls s = Some s' → (r < next s)%nat →
  (r < next s')%nat ∧
  Name (heap s' r) = Name (heap s r) ∧ tag (heap s' r) = tag (heap s r) ∧
  (removed (heap s r) = true → removed (heap s' r) = true) ∧
  (running (heap s r) = true → running (heap s' r) = true) ∧
  (done (heap s r) = true → done (heap s' r) = true).
Proof.
  induction ls as [|l ls IH]; intros s s' r He Hr; simpl in He.
  - by simplify_eq.
  - destruct (step l s) as [s1|] eqn:Hs; [simpl in He|done].
    destruct (records_stable s l s1 r Hs Hr) as (HN & HT & Hr1).
    destruct (record_step s l s1 r Hs Hr) as (H1 & H2 & H3).
    destruct (IH s1 s' r He Hr1) as (Hr' & HN' & HT' & H1' & H2' & H3').
    rewrite HN', HT'. split_and!; auto.
Qed.

Lemma watching_record :
  (0 < next (after ["prod"%string] watching))%nat ∧
  tag (heap (after ["prod"%string] watching) 0%nat) = "prod"%string.
Proof. vm_compute. split; [lia|done]. Qed.

(** X15 for the record of "web" when the catalog comes back empty. *)
Lemma X15_record_fields_witness :
  exec (remove 2) (after ["prod"%string] watching)
  = Some (after ["prod"%string] (watching ++ remove 2)) ∧
  (0 < next (after ["prod"%string] watching))%nat ∧
  tag (heap (after ["prod"%string] (watching ++ remove 2)) 0%nat)
  = "prod"%string.
Proof.
  destruct watching_remove as (He & _). destruct watching_record as [Hn Ht].
  split; [exact He|]. split; [exact Hn|].
  destruct (X15_record_fields _ _ _ 0%nat He Hn) as (_ & _ & -> & _).
  exact Ht.
Defined.

(** ** Polls of [service.done] *)

Lemma never_after_none P Q tr : ¬ Exists P tr → never_after P Q tr.
Proof.
  intros Hno i j e1 e2 H1 _ HP _ _. apply Hno, Exists_exists.
  exists e1. split; [by eapply list_elem_of_lookup_2|done].
Qed.

Lemma at_most_once_after_nil P Q : at_most_once_after P Q [].
Proof. intros i j k ei ej ek H. by rewrite lookup_nil in H. Qed.

Lemma at_most_once_after_snoc P Q tr e :
  at_most_once_after P Q tr → (Q e → never_after P Q tr) →
  at_most_once_after P Q (tr ++ [e]).
Proof.
  intros Ha He i j k ei ej ek Hi Hj Hk HP HQj HQk Hij Hik.
  apply lookup_snoc_Some in Hi as [[Hli Hi]|[-> <-]];
    apply lookup_snoc_Some in Hj as [[Hlj Hj]|[-> <-]];
    apply lookup_snoc_Some in Hk as [[Hlk Hk]|[-> <-]]; try lia.
  all: first [ exact (Ha i j k ei ej ek Hi Hj Hk HP HQj HQk Hij Hik)
             | destruct (He HQk i j ei ej Hi Hj HP HQj Hij)
             | destruct (He HQj i k ei ek Hi Hk HP HQk Hik) ].
Qed.

Lemma poll_inv_init tags : poll_inv (init tags).
Proof.
  split; simpl; try done.
  all: intros; first [ apply never_after_nil | apply preceded_by_nil
                     | apply at_most_once_after_nil ].
Qed.

Lemma poll_inv_step s l s' :
  launch_inv s → cancel_inv s → poll_inv s → step l s = Some s' → poll_inv s'.
Proof.
  intros HL HC HP Hs. step_cases Hs.
  all: destruct HL as [_ _ Ln Lu], HC as [Cd _ _ _ _ _ _], HP as [P1 P2 P3 P4].
  all: split; simpl; try assumption.
  all: try (intros; never_goal; by auto).
  all: try (intros; snoc_goal; by auto).
  all: try (intros;
            repeat (apply at_most_once_after_snoc;
                    [|simpl; try (by intros []); try (by intros [? ?])]);
            by auto).
  all: try (intros i' r' a' Hw; lookup_cases;
            destruct (P2 _ _ a' Hw) as [Hex Hn];
            split; [ex_goal; tauto|never_goal; done]).
  - (* the check finds the channel open *)
    intros a r. never_goal; [done|]. intros -> Hex%Cd. congruence.
  - intros j r a Hw. lookup_cases.
    + split; [ex_goal; by right; left|]. never_goal.
      apply never_after_none. intros Hex%Cd. congruence.
    + destruct (P2 _ _ a Hw) as [Hex Hn].
      split; [ex_goal; tauto|never_goal; done].
  - (* CHANGED is sent *)
    intros j r a Hw. lookup_cases. destruct (P2 _ _ a Hw) as [Hex Hn].
    split; [ex_goal; tauto|]. never_goal; [done|]. intros [-> _].
    match goal with H1 : watchers _ !! i = Some _ |- _ =>
      by destruct (Lu _ _ _ _ _ H1 Hw) end.
  - intros r. snoc_goal; [done|]. intros [-> _].
    match goal with H1 : watchers _ !! i = Some _ |- _ =>
      by destruct (P2 _ _ InRun H1) end.
  - intros a r. apply at_most_once_after_snoc; [done|]. intros [-> _].
    match goal with H1 : watchers _ !! i = Some _ |- _ =>
      by destruct (P2 _ _ a H1) end.
Qed.

Lemma reachable_poll_inv tags s : reachable tags s → poll_inv s.
Proof.
  apply reachable_inv; [apply poll_inv_init|].
  intros s0 l s1 Hr. apply poll_inv_step.
  - by eapply reachable_launch_inv.
  - by eapply reachable_cancel_inv.
Qed.

(** ** Cancellation and the order of updates, with the polls *)

(** C1, as amended: no CHANGED is sent for a record once its watch loop
    has found [done] closed, nor once [stop] has closed it; no NEW is sent
    for a record once its [done] has been closed; a DELETED is sent only
    after [Run] has closed the record's [done].  The poll of [done] and the
    send of CHANGED are made under the mutex, and so is the close in
    [stop]; the close in [Run] is made without it.  Every poll that comes
    after a close, in [Run] or in [stop], finds [done] closed, and every
    CHANGED comes after a poll that found it open; so after the close in
    [Run] at most one CHANGED is still sent for the record, by the loop
    that had passed its check before the close. *)
Theorem C1_no_changed_after_cancel s :
  reached s →
  (∀ r, never_after (seesCancelled r) (emits registry.CHANGED r) (trace s)) ∧
  (∀ r, never_after (closes InStop r) (emits registry.CHANGED r) (trace s)) ∧
  (∀ a r, never_after (closes a r) (emits registry.NEW r) (trace s)) ∧
  (∀ r, preceded_by (closes InRun r) (emits registry.DELETED r) (trace s)) ∧
  Forall (λ e,
    match act e with
    | ACheckDone _ _ | ACloseDone InStop _ => underLock e
    | AEmit _ u => registry.UpdateType_ u = registry.CHANGED → underLock e
    | ACloseDone InRun _ => ¬ underLock e
    | _ => True
    end) (trace s) ∧
  (∀ a r, never_after (closes a r) (pollsOpen r) (trace s)) ∧
  (∀ r, preceded_by (pollsOpen r) (emits registry.CHANGED r) (trace s)) ∧
  (∀ a r, at_most_once_after (closes a r) (emits registry.CHANGED r) (trace s)).
Proof.
  intros [tags Hr]. split_and!.
  - by destruct (reachable_watch_inv _ _ Hr).
  - by destruct (reachable_watch_inv _ _ Hr).
  - by destruct (reachable_cancel_inv _ _ Hr).
  - by destruct (reachable_cancel_inv _ _ Hr).
  - apply reachable_discipline in Hr.
    eapply Forall_impl; [exact Hr|]. intros e [[Hg Hu] _].
    destruct (act e) as [| | | | | | | |[] ?| | | | | |]; simpl in *; auto.
  - by destruct (reachable_poll_inv _ _ Hr).
  - by destruct (reachable_poll_inv _ _ Hr).
  - by destruct (reachable_poll_inv _ _ Hr).
Qed.

Lemma twoCancellations_trace :
  trace (after ["prod"%string] twoCancellations) !! 16%nat
  = Some (mkEntry TRun None (ACloseDone InRun 0)) ∧
  trace (after ["prod"%string] twoCancellations) !! 21%nat
  = Some (mkEntry (TWatch 0) (Some (TWatch 0)) (ACheckDone 0 true)) ∧
  trace (after ["prod"%string] twoCancellations) !! 33%nat
  = Some (mkEntry (TWatch 1) (Some (TWatch 1))
            (AEmit 1 (registry.mkUpdate "web" registry.CHANGED
                        (buildInstances [node1]) "prod"))) ∧
  trace (after ["prod"%string] twoCancellations) !! 36%nat
  = Some (mkEntry TRun (Some TRun) (ACloseDone InStop 1)) ∧
  trace (after ["prod"%string] twoCancellations) !! 42%nat
  = Some (mkEntry (TWatch 1) (Some (TWatch 1)) (ACheckDone 1 true)).
Proof. vm_compute. done. Qed.

(** C1 in a run with both kinds of cancellation: [Run] closes the [done]
    of the first record of "web" (entry 16) and its loop then polls it
    closed (entry 21); [stop] closes the [done] of the second record
    (entry 36) and its loop then polls it closed (entry 42).  No later
    entry is a poll that finds the first [done] open, and none is a CHANGED
    of the first record after entry 21 or of the second after entry 36. *)
Lemma C1_no_changed_after_cancel_witness :
  reached (after ["prod"%string] twoCancellations) ∧
  trace (after ["prod"%string] twoCancellations) !! 16%nat
  = Some (mkEntry TRun None (ACloseDone InRun 0)) ∧
  trace (after ["prod"%string] twoCancellations) !! 21%nat
  = Some (mkEntry (TWatch 0) (Some (TWatch 0)) (ACheckDone 0 true)) ∧
  trace (after ["prod"%string] twoCancellations) !! 36%nat
  = Some (mkEntry TRun (Some TRun) (ACloseDone InStop 1)) ∧
  trace (after ["prod"%string] twoCancellations) !! 42%nat
  = Some (mkEntry (TWatch 1) (Some (TWatch 1)) (ACheckDone 1 true)) ∧
  (∀ j e, trace (after ["prod"%string] twoCancellations) !! j = Some e →
          pollsOpen 0 e → ¬ (16 < j)%nat) ∧
  (∀ j e, trace (after ["prod"%string] twoCancellations) !! j = Some e →
          emits registry.CHANGED 0 e → ¬ (21 < j)%nat) ∧
  (∀ j e, trace (after ["prod"%string] twoCancellations) !! j = Some e →
          emits registry.CHANGED 1 e → ¬ (36 < j)%nat).
Proof.
  destruct twoCancellations_trace as (H16 & H21 & _ & H36 & H42).
  split; [apply after_reached|].
  split; [exact H16|]. split; [exact H21|]. split; [exact H36|].
  split; [exact H42|].
  destruct (C1_no_changed_after_cancel _
              (after_reached ["prod"%string] twoCancellations))
    as (Hseen & Hstop & _ & _ & _ & Hopen & _ & _).
  split_and!.
  - intros j e Hj He. exact (Hopen InRun 0%nat 16%nat j _ e H16 Hj
                               (conj eq_refl eq_refl) He).
  - intros j e Hj He. exact (Hseen 0%nat 21%nat j _ e H21 Hj eq_refl He).
  - intros j e Hj He. exact (Hstop 1%nat 36%nat j _ e H36 Hj
                               (conj eq_refl eq_refl) He).
Defined.

(** C4, as amended: for every record, NEW is sent at most once and never
    after the record's DELETED; NEW and every CHANGED come after [Run] has
    started the record's watch loop, which it does at most once.  (A name
    that leaves the catalog and comes back gets a new record.)  After the
    record's DELETED no poll finds its [done] open, and after a poll that
    finds it closed no CHANGED is sent; every CHANGED comes after a poll
    that found it open; so at most one CHANGED follows the DELETED, sent
    by the loop that had passed its check before [Run] closed [done]. *)
Theorem C4_order_per_record s :
  reached s →
  ∀ r,
    at_most_once (emits registry.NEW r) (trace s) ∧
    never_after (emits registry.DELETED r) (emits registry.NEW r) (trace s) ∧
    at_most_once (launches r) (trace s) ∧
    preceded_by (launches r) (emits registry.NEW r) (trace s) ∧
    preceded_by (launches r) (emits registry.CHANGED r) (trace s) ∧
    at_most_once_after (emits registry.DELETED r) (emits registry.CHANGED r)
      (trace s) ∧
    never_after (emits registry.DELETED r) (pollsOpen r) (trace s) ∧
    never_after (seesCancelled r) (emits registry.CHANGED r) (trace s) ∧
    preceded_by (pollsOpen r) (emits registry.CHANGED r) (trace s).
Proof.
  intros [tags Hr] r.
  pose proof (reachable_history_inv _ _ Hr) as HH.
  pose proof (reachable_cancel_inv _ _ Hr) as [_ _ _ _ C5 _ C7].
  destruct (reachable_poll_inv _ _ Hr) as [P1 _ P3 P4].
  destruct (reachable_watch_inv _ _ Hr) as [_ _ _ _ W5].
  split_and!; try done; try (by destruct HH).
  - intros i j k ei ej ek Hi Hj Hk Hd HQj HQk Hij Hik.
    destruct (C5 r i ei Hi Hd) as (c & ec & Hc & Hec & Hcl).
    apply (P4 InRun r c j k ec ej ek); try done; lia.
  - intros i j ei ej Hi Hj Hd Hp Hij.
    destruct (C5 r i ei Hi Hd) as (c & ec & Hc & Hec & Hcl).
    apply (P1 InRun r c j ec ej Hec Hj Hcl Hp). lia.
Qed.

Lemma lateChangedThenPoll_trace :
  trace (after ["prod"%string] lateChangedThenPoll) !! 13%nat
  = Some (mkEntry (TWatch 0) (Some (TWatch 0)) (ACheckDone 0 false)) ∧
  trace (after ["prod"%string] lateChangedThenPoll) !! 15%nat
  = Some (mkEntry TRun (Some (TWatch 0))
            (AEmit 0 (registry.mkUpdate "web" registry.DELETED ∅ "prod"))) ∧
  trace (after ["prod"%string] lateChangedThenPoll) !! 16%nat
  = Some (mkEntry (TWatch 0) (Some (TWatch 0))
            (AEmit 0 (registry.mkUpdate "web" registry.CHANGED
                        (buildInstances [node1]) "prod"))) ∧
  trace (after ["prod"%string] lateChangedThenPoll) !! 21%nat
  = Some (mkEntry (TWatch 0) (Some (TWatch 0)) (ACheckDone 0 true)).
Proof. vm_compute. done. Qed.

(** C4 in a run where the watch loop of "web" polls [done] open (entry
    13), [Run] then closes it and sends DELETED (entry 15), the loop sends
    its CHANGED (entry 16) and at its next poll finds [done] closed (entry
    21): entry 16 is the only CHANGED after the DELETED, and no poll after
    the DELETED finds [done] open. *)
Lemma C4_order_per_record_witness :
  reached (after ["prod"%string] lateChangedThenPoll) ∧
  trace (after ["prod"%string] lateChangedThenPoll) !! 13%nat
  = Some (mkEntry (TWatch 0) (Some (TWatch 0)) (ACheckDone 0 false)) ∧
  trace (after ["prod"%string] lateChangedThenPoll) !! 15%nat
  = Some (mkEntry TRun (Some (TWatch 0))
            (AEmit 0 (registry.mkUpdate "web" registry.DELETED ∅ "prod"))) ∧
  trace (after ["prod"%string] lateChangedThenPoll) !! 16%nat
  = Some (mkEntry (TWatch 0) (Some (TWatch 0))
            (AEmit 0 (registry.mkUpdate "web" registry.CHANGED
                        (buildInstances [node1]) "prod"))) ∧
  trace (after ["prod"%string] lateChangedThenPoll) !! 21%nat
  = Some (mkEntry (TWatch 0) (Some (TWatch 0)) (ACheckDone 0 true)) ∧
  (∀ k e, trace (after ["prod"%string] lateChangedThenPoll) !! k = Some e →
          emits registry.CHANGED 0 e → (15 < k)%nat → k = 16%nat) ∧
  (∀ j e, trace (after ["prod"%string] lateChangedThenPoll) !! j = Some e →
          pollsOpen 0 e → ¬ (15 < j)%nat).
Proof.
  destruct lateChangedThenPoll_trace as (H13 & H15 & H16 & H21).
  split; [apply after_reached|].
  split; [exact H13|]. split; [exact H15|]. split; [exact H16|].
  split; [exact H21|].
  destruct (C4_order_per_record _
              (after_reached ["prod"%string] lateChangedThenPoll) 0%nat)
    as (_ & _ & _ & _ & _ & Hlate & Hopen & _ & _).
  split.
  - intros k e Hk He Hlt. symmetry.
    refine (Hlate 15%nat 16%nat k _ _ e H15 H16 Hk _ _ He _ Hlt).
    + split; reflexivity.
    + split; reflexivity.
    + apply Nat.lt_succ_diag_r.
  - intros j e Hj He.
    exact (Hopen 15%nat j _ e H15 Hj (conj eq_refl eq_refl) He).
Defined.
